(** * BERTAdam: the scheduled weight-decay optimizer of
      [ReNER/tools/pytorch_optimization.py]

    A shallow embedding of the schedule functions, of [BERTAdam.__init__],
    of [BERTAdam.step] and of the parameter grouping of [get_optimization].

    Numbers.  Python floats and tensor entries are idealised as real numbers
    ([R]): rounding, infinities and NaN are not modelled.  Python integers
    (the step counter, [t_total], [cycle_step]) are [Z].  What Python does
    beyond arithmetic is kept: a division by zero raises
    [ZeroDivisionError], a missing dictionary key raises [KeyError],
    multiplying [None] raises [TypeError], and [torch.cos] refuses a Python
    float.  A tensor is the list of its entries. *)

From Stdlib Require Import Reals Lra ZArith Lia List.
From stdpp Require Import base decidable option list gmap strings.

Local Open Scope R_scope.

(** ** Exceptions and results *)

(** The payload of a [ValueError]: which check failed and the value that
    the message is formatted with. *)
Inductive value_error : Type :=
| Invalid_learning_rate (v : R)
| Invalid_schedule (s : string)
| Invalid_warmup (v : R)
| Invalid_b1 (v : R)
| Invalid_b2 (v : R)
| Invalid_epsilon (v : R)
| Empty_parameter_list
| Parameter_in_several_groups.

Inductive exn : Type :=
| ValueError (m : value_error)
| RuntimeError_sparse
| ZeroDivisionError
| TypeError
| KeyError (k : string)
| AssertionError
| ImportError.

Inductive result (A : Type) : Type :=
| OK (a : A)
| Raise (x : exn).
Arguments OK {A} a.
Arguments Raise {A} x.

#[global] Instance result_ret : MRet result := fun A a => OK a.
#[global] Instance result_bind : MBind result := fun A B f r =>
  match r with OK a => f a | Raise x => Raise x end.

(** ** Decidable comparisons on the reals *)

#[global] Instance Rlt_decision : RelDecision Rlt := Rlt_dec.
#[global] Instance Rle_decision : RelDecision Rle := Rle_dec.
#[global] Instance Rgt_decision : RelDecision Rgt := Rgt_dec.
#[global] Instance Rge_decision : RelDecision Rge := Rge_dec.
#[global] Instance Req_decision : EqDecision R := Req_dec_T.

(** Python's [x / y] on numbers. *)
Definition pydiv (x y : R) : result R :=
  if decide (y = 0) then Raise ZeroDivisionError else OK (x / y).

(** Python's [min(a, b)]: the first argument unless the second is smaller. *)
Definition pymin (a b : R) : R := if decide (b < a) then b else a.

(** ** Schedule functions (source lines 21-48) *)

(** What [torch.cos] can be handed: it accepts a tensor only. *)
Inductive torch_arg : Type :=
| PyFloat (r : R)
| Tensor0 (r : R).

Definition torch_cos (a : torch_arg) : result R :=
  match a with
  | PyFloat _ => Raise TypeError
  | Tensor0 r => OK (cos r)
  end.

(** The schedule functions on Python floats, which is what the optimizer
    passes: [state['step'] / group['t_total']] is a float, hence so is
    [math.pi * x]. *)
Definition warmup_cosine (x warmup : R) : result R :=
  if decide (x < warmup) then pydiv x warmup
  else c ← torch_cos (PyFloat (PI * x)); OK (0.5 * (1.0 + c)).

Definition warmup_constant (x warmup : R) : result R :=
  if decide (x < warmup) then pydiv x warmup
  else OK 1.0.

Definition warmup_linear (x warmup : R) : result R :=
  if decide (x < warmup) then pydiv x warmup
  else pydiv (1.0 - x) (1.0 - warmup).

Definition warmup_fix (step warmup_step : R) : result R :=
  q ← pydiv step warmup_step; OK (pymin 1.0 q).

Definition SCHEDULES : gmap string (R → R → result R) :=
  <["warmup_cosine" := warmup_cosine]>
  (<["warmup_constant" := warmup_constant]>
  (<["warmup_linear" := warmup_linear]>
  (<["warmup_fix" := warmup_fix]> ∅))).

(** [SCHEDULES[name]] *)
Definition SCHEDULES_getitem (name : string) : result (R → R → result R) :=
  match SCHEDULES !! name with
  | Some f => OK f
  | None => Raise (KeyError name)
  end.

(** ** Data model *)

(** A tensor is the list of its entries. *)
Abbreviation tensor := (list R).

(** [p.grad]: its entries and whether its layout is sparse. *)
Record gradient : Type := Gradient {
  is_sparse : bool;
  grad_data : tensor
}.

(** A [Parameter] object: [p.data] and [p.grad] ([None] when absent). *)
Record parameter : Type := MkParameter {
  data : tensor;
  grad : option gradient
}.

(** Parameters are objects compared by identity: a group holds references
    into the heap that the caller's model owns. *)
Definition param_id := positive.

(** The [defaults] dictionary, which is also the keyword arguments of
    [BERTAdam.__init__]. *)
Record defaults : Type := Defaults {
  lr : option R;
  schedule : string;
  warmup : R;
  t_total : Z;
  b1 : R;
  b2 : R;
  e : R;
  weight_decay_rate : R;
  max_grad_norm : R;
  cycle_step : option Z
}.

(** The keyword defaults of [__init__] (source lines 66-68). *)
Definition default_args (learning_rate : option R) : defaults :=
  {| lr := learning_rate; warmup := -1; t_total := (-1)%Z;
     schedule := "warmup_linear"; b1 := 0.9; b2 := 0.999; e := 1e-6;
     weight_decay_rate := 0.01; cycle_step := None; max_grad_norm := 1.0 |}.

(** An entry of [self.param_groups]: the parameters and every key of
    [defaults]. *)
Record param_group : Type := Group {
  params : list param_id;
  hyper :> defaults
}.

(** A group as handed to the constructor: of the hyperparameter keys only
    ['weight_decay_rate'] is ever given per group in this repository. *)
Record group_spec : Type := GroupSpec {
  spec_params : list param_id;
  spec_weight_decay_rate : option R
}.

(** [self.state[p]] once initialised. *)
Record param_state : Type := ParamState {
  step : Z;
  next_m : tensor;
  next_v : tensor
}.

(** [self.state] is a dictionary from parameters to their state; a
    parameter whose state is still empty has no entry. *)
Record optimizer : Type := Optimizer {
  param_groups : list param_group;
  state : gmap param_id param_state
}.

(** What an update call can read and write: the optimizer and the
    parameters of the caller. *)
Record world : Type := World {
  self : optimizer;
  heap : param_id → parameter
}.

(** ** Tensor operations, entry by entry *)

(** A gradient and the two moments have the shape of their parameter, so
    the lists that meet in a binary operation have the same length. *)

Definition zeros_like (t : tensor) : tensor := (λ _, 0) <$> t.
Definition mul_ (t : tensor) (c : R) : tensor := (λ x, x * c) <$> t.
Definition add_ (t : tensor) (alpha : R) (other : tensor) : tensor :=
  zip_with (λ x y, x + alpha * y) t other.
Definition addcmul_ (t : tensor) (value : R) (t1 t2 : tensor) : tensor :=
  zip_with (λ x y, x + value * y) t (zip_with Rmult t1 t2).
Definition tensor_sqrt (t : tensor) : tensor := sqrt <$> t.
Definition tensor_add_scalar (t : tensor) (c : R) : tensor := (λ x, x + c) <$> t.
Definition tensor_div (a b : tensor) : tensor := zip_with Rdiv a b.
Definition tensor_add (a b : tensor) : tensor := zip_with Rplus a b.
Definition tensor_scale (c : R) (t : tensor) : tensor := Rmult c <$> t.
Definition tensor_neg (t : tensor) : tensor := Ropp <$> t.

(** ** Construction (source lines 66-84) *)

Definition raise_if (failed : Prop) `{!Decision failed} (m : value_error)
  : result unit :=
  if decide failed then Raise (ValueError m) else OK ().

Definition BERTAdam_checks (a : defaults) : result unit :=
  match lr a with
  | Some l => raise_if (¬ l >= 0.0) (Invalid_learning_rate l)
  | None => OK ()
  end;;
  raise_if (SCHEDULES !! schedule a = None) (Invalid_schedule (schedule a));;
  raise_if (¬ (0.0 <= warmup a ∧ warmup a < 1.0) ∧ ¬ warmup a = -1)
           (Invalid_warmup (warmup a));;
  raise_if (¬ (0.0 <= b1 a ∧ b1 a < 1.0)) (Invalid_b1 (b1 a));;
  raise_if (¬ (0.0 <= b2 a ∧ b2 a < 1.0)) (Invalid_b2 (b2 a));;
  raise_if (¬ e a >= 0.0) (Invalid_epsilon (e a)).

(** The base class, [torch.optim.Optimizer]: an empty list of groups is
    refused, a parameter may not sit in two groups, and a group takes from
    [defaults] every key it does not set itself. *)
Definition add_param_group (d : defaults) (groups : list param_group)
    (g : group_spec) : result (list param_group) :=
  if decide (Exists (λ p, p ∈ concat (map params groups)) (spec_params g))
  then Raise (ValueError Parameter_in_several_groups)
  else OK (groups ++
    [ {| params := spec_params g;
         hyper := {| lr := lr d; schedule := schedule d; warmup := warmup d;
                     t_total := t_total d; b1 := b1 d; b2 := b2 d; e := e d;
                     weight_decay_rate :=
                       default (weight_decay_rate d) (spec_weight_decay_rate g);
                     max_grad_norm := max_grad_norm d;
                     cycle_step := cycle_step d |} |} ]).

Fixpoint add_param_groups (d : defaults) (groups : list param_group)
    (gs : list group_spec) : result (list param_group) :=
  match gs with
  | [] => OK groups
  | g :: gs' => groups' ← add_param_group d groups g; add_param_groups d groups' gs'
  end.

Definition Optimizer_init (gs : list group_spec) (d : defaults) : result optimizer :=
  match gs with
  | [] => Raise (ValueError Empty_parameter_list)
  | _ => groups ← add_param_groups d [] gs;
         OK {| param_groups := groups; state := ∅ |}
  end.

Definition BERTAdam_init (gs : list group_spec) (a : defaults) : result optimizer :=
  BERTAdam_checks a;;
  Optimizer_init gs a.

(** ** The learning rate of one update (source lines 137-145) *)

(** Python's [a % b] on integers: the sign of the result is the divisor's,
    as with [Z.modulo]. *)
Definition pymod (a b : Z) : result Z :=
  if decide (b = 0%Z) then Raise ZeroDivisionError else OK (a mod b)%Z.

(** [group['lr']] where a number is needed: [None] raises. *)
Definition get_lr (group : defaults) : result R :=
  match lr group with
  | Some l => OK l
  | None => Raise TypeError
  end.

(** [group['lr'] * m]: multiplying [None] raises. *)
Definition times_lr (group : defaults) (m : R) : result R :=
  match lr group with
  | Some l => OK (l * m)
  | None => Raise TypeError
  end.

(** [lr_scheduled].  In the last branch the source binds [group['lr']]
    itself and multiplies it with the update on the next line; the
    [TypeError] of an unset learning rate is raised here in that branch
    too, nothing being written in between. *)
Definition lr_scheduled (group : defaults) (step : Z) : result R :=
  schedule_fct ← SCHEDULES_getitem (schedule group);
  let not_cyclical : result R :=
    if decide (t_total group ≠ (-1)%Z ∧ schedule group ≠ "warmup_fix") then
      x ← pydiv (IZR step) (IZR (t_total group));
      m ← schedule_fct x (warmup group);
      times_lr group m
    else if decide (schedule group = "warmup_fix") then
      m ← schedule_fct (IZR step) (warmup group * IZR (t_total group));
      times_lr group m
    else get_lr group in
  match cycle_step group with
  | Some c =>
      if decide (step > c)%Z then
        r ← pymod step c;
        q ← pydiv (IZR r) (IZR c);
        times_lr group (1 - q)
      else not_cyclical
  | None => not_cyclical
  end.

(** ** Gradient clipping *)

(** [torch.nn.utils.clip_grad_norm_] on one parameter with the 2-norm: the
    gradient is scaled by [max_norm / (total_norm + 1e-6)] when that
    coefficient is below 1. *)
Definition total_norm (g : tensor) : R :=
  sqrt (foldr Rplus 0 ((λ x, x * x) <$> g)).

Definition clip_coefficient (g : tensor) (max_norm : R) : R :=
  max_norm / (total_norm g + 1e-6).

Definition clipped (g : tensor) (max_norm : R) : tensor :=
  if decide (clip_coefficient g max_norm < 1)
  then mul_ g (clip_coefficient g max_norm) else g.

(** ** The update call (source lines 86-152) *)

(** Computations that read and write the world and may raise; what was
    written before an exception stays written. *)
Definition M (A : Type) : Type := world → world * result A.

#[global] Instance M_ret : MRet M := λ A a w, (w, OK a).
#[global] Instance M_bind : MBind M := λ A B f m w,
  match m w with
  | (w', OK a) => f a w'
  | (w', Raise x) => (w', Raise x)
  end.

Definition raise {A} (x : exn) : M A := λ w, (w, Raise x).
Definition lift {A} (r : result A) : M A := λ w, (w, r).

Definition with_state (f : gmap param_id param_state → gmap param_id param_state)
    (w : world) : world :=
  {| self := {| param_groups := param_groups (self w);
                state := f (state (self w)) |};
     heap := heap w |}.

Definition with_parameter (p : param_id) (f : parameter → parameter)
    (w : world) : world :=
  {| self := self w;
     heap := λ q, if decide (q = p) then f (heap w p) else heap w q |}.

Definition get_parameter (p : param_id) : M parameter := λ w, (w, OK (heap w p)).

(** The state a parameter is given on its first update (source lines
    107-112). *)
Definition initial_state (P : parameter) : param_state :=
  {| step := 0; next_m := zeros_like (data P); next_v := zeros_like (data P) |}.

(** [state = self.state[p]], initialised when empty. *)
Definition get_state (p : param_id) : M param_state := λ w,
  match state (self w) !! p with
  | Some s => (w, OK s)
  | None => (with_state <[p := initial_state (heap w p)]> w, OK (initial_state (heap w p)))
  end.

Definition set_state (p : param_id) (s : param_state) : M unit := λ w,
  (with_state <[p := s]> w, OK ()).

Definition set_grad_data (p : param_id) (g : tensor) : M unit := λ w,
  (with_parameter p (λ P, {| data := data P;
      grad := (λ gr, {| is_sparse := is_sparse gr; grad_data := g |}) <$> grad P |}) w,
   OK ()).

Definition set_data (p : param_id) (d : tensor) : M unit := λ w,
  (with_parameter p (λ P, {| data := d; grad := grad P |}) w, OK ()).

(** [clip_grad_norm_(p, max_norm)] writes [p.grad] in place. *)
Definition clip_grad_norm_ (p : param_id) (max_norm : R) : M unit := λ w,
  match grad (heap w p) with
  | Some gr => set_grad_data p (clipped (grad_data gr) max_norm) w
  | None => (w, OK ())
  end.

(** [grad = p.grad.data] read after the clipping: the name was bound
    before it, to the same storage. *)
Definition get_grad_data (p : param_id) : M tensor := λ w,
  (w, OK (from_option grad_data [] (grad (heap w p)))).

(** The body of the inner loop for the parameter [p] of [group]. *)
Definition update_parameter (group : param_group) (p : param_id) : M unit :=
  P ← get_parameter p;
  match grad P with
  | None => mret ()
  | Some gr =>
      if is_sparse gr then raise RuntimeError_sparse else
      s ← get_state p;
      let beta1 := b1 group in
      let beta2 := b2 group in
      (if decide (max_grad_norm group > 0)
       then clip_grad_norm_ p (max_grad_norm group) else mret ());;
      grad ← get_grad_data p;
      let m := add_ (mul_ (next_m s) beta1) (1 - beta1) grad in
      let v := addcmul_ (mul_ (next_v s) beta2) (1 - beta2) grad grad in
      set_state p {| step := step s; next_m := m; next_v := v |};;
      let update := tensor_div m (tensor_add_scalar (tensor_sqrt v) (e group)) in
      let update :=
        if decide (weight_decay_rate group > 0.0)
        then tensor_add update (tensor_scale (weight_decay_rate group) (data P))
        else update in
      lr_sched ← lift (lr_scheduled group (step s));
      let update_with_lr := tensor_scale lr_sched update in
      set_data p (tensor_add (data P) (tensor_neg update_with_lr));;
      set_state p {| step := step s + 1; next_m := m; next_v := v |}
  end.

Fixpoint for_each {A} (l : list A) (body : A → M unit) : M unit :=
  match l with
  | [] => mret ()
  | x :: l' => body x;; for_each l' body
  end.

Definition update_group (group : param_group) : M unit :=
  for_each (params group) (update_parameter group).

Definition update_loop : M unit := λ w,
  for_each (param_groups (self w)) update_group w.

(** [closure], when given, re-evaluates the model (it may write the
    parameters and their gradients) and returns the loss. *)
Definition run_closure (closure : option ((param_id → parameter) →
                                          (param_id → parameter) * R))
  : M (option R) := λ w,
  match closure with
  | Some c => ({| self := self w; heap := (c (heap w)).1 |}, OK (Some (c (heap w)).2))
  | None => (w, OK None)
  end.

Definition BERTAdam_step (closure : option ((param_id → parameter) →
                                            (param_id → parameter) * R))
  : M (option R) :=
  loss ← run_closure closure;
  update_loop;;
  mret loss.

(** ** The optimizer factory (source lines 155-194) *)

(** [sub in s] on strings. *)
Fixpoint contains (sub s : string) : bool :=
  String.prefix sub s ||
  match s with
  | EmptyString => false
  | String _ s' => contains sub s'
  end.

Definition no_decay : list string := ["bias"; "LayerNorm.bias"; "LayerNorm.weight"].

(** [any([nd in n for nd in no_decay])] *)
Definition any_no_decay (n : string) : bool :=
  existsb (λ nd, contains nd n) no_decay.

(** [param_optimizer] after the pooler filter. *)
Definition param_optimizer (named_parameters : list (string * param_id))
    (opt_pooler : bool) : list (string * param_id) :=
  if opt_pooler then named_parameters
  else filter (λ n, contains "pooler" n.1 = false) named_parameters.

Definition optimizer_parameters (named_parameters : list (string * param_id))
    (opt_pooler : bool) (weight_decay_rate : R) : list group_spec :=
  let param_optimizer := param_optimizer named_parameters opt_pooler in
  [ {| spec_params := map snd (filter (λ n, any_no_decay n.1 = false) param_optimizer);
       spec_weight_decay_rate := Some weight_decay_rate |};
    {| spec_params := map snd (filter (λ n, any_no_decay n.1 = true) param_optimizer);
       spec_weight_decay_rate := Some 0.0 |} ].

(** What the factory returns: a [BERTAdam], or the call it makes to the
    mixed-precision optimizer of apex, which is outside this repository. *)
Inductive built_optimizer : Type :=
| Built_BERTAdam (o : optimizer)
| Built_FP16_FusedAdam (gs : list group_spec) (lr max_grad_norm : R).

Definition get_optimization (apex_installed : bool)
    (named_parameters : list (string * param_id)) (float16 : bool)
    (learning_rate : R) (total_steps : Z) (schedule : string)
    (warmup_rate weight_decay_rate max_grad_norm : R) (opt_pooler : bool)
  : result built_optimizer :=
  if decide (0.0 <= warmup_rate ∧ warmup_rate <= 1.0) then
    let gs := optimizer_parameters named_parameters opt_pooler weight_decay_rate in
    if float16 then
      if apex_installed
      then OK (Built_FP16_FusedAdam gs learning_rate max_grad_norm)
      else Raise ImportError
    else
      o ← BERTAdam_init gs
            {| lr := Some learning_rate; warmup := warmup_rate;
               max_grad_norm := max_grad_norm; t_total := total_steps;
               schedule := schedule; weight_decay_rate := weight_decay_rate;
               b1 := 0.9; b2 := 0.999; e := 1e-6; cycle_step := None |};
      OK (Built_BERTAdam o)
  else Raise AssertionError.

(** ** The constructor with its keyword arguments spelled out *)

Definition BERTAdam (gs : list group_spec) (lr : option R) (warmup : R)
    (t_total : Z) (schedule : string) (b1 b2 e weight_decay_rate : R)
    (cycle_step : option Z) (max_grad_norm : R) : result optimizer :=
  BERTAdam_init gs
    {| lr := lr; warmup := warmup; t_total := t_total; schedule := schedule;
       b1 := b1; b2 := b2; e := e; weight_decay_rate := weight_decay_rate;
       cycle_step := cycle_step; max_grad_norm := max_grad_norm |}.

(** ** The checks of the constructor as the specification words them *)

Definition known_schedules : list string :=
  ["warmup_cosine"; "warmup_constant"; "warmup_linear"; "warmup_fix"].

Definition valid_hyperparameters (a : defaults) : Prop :=
  (∀ l, lr a = Some l → 0 <= l) ∧
  schedule a ∈ known_schedules ∧
  ((0 <= warmup a ∧ warmup a < 1) ∨ warmup a = -1) ∧
  (0 <= b1 a ∧ b1 a < 1) ∧
  (0 <= b2 a ∧ b2 a < 1) ∧
  0 <= e a.

(** The error names a value of [a] that fails its check. *)
Definition names_offending_value (a : defaults) (m : value_error) : Prop :=
  match m with
  | Invalid_learning_rate v => lr a = Some v ∧ ¬ 0 <= v
  | Invalid_schedule s => s = schedule a ∧ s ∉ known_schedules
  | Invalid_warmup v => v = warmup a ∧ ¬ ((0 <= v ∧ v < 1) ∨ v = -1)
  | Invalid_b1 v => v = b1 a ∧ ¬ (0 <= v ∧ v < 1)
  | Invalid_b2 v => v = b2 a ∧ ¬ (0 <= v ∧ v < 1)
  | Invalid_epsilon v => v = e a ∧ ¬ 0 <= v
  | Empty_parameter_list | Parameter_in_several_groups => False
  end.

(** A group carries the values of [d] under every key but
    ['weight_decay_rate'], which a group may set itself. *)
Definition takes_defaults (d : defaults) (g : param_group) : Prop :=
  lr g = lr d ∧ schedule g = schedule d ∧ warmup g = warmup d ∧
  t_total g = t_total d ∧ b1 g = b1 d ∧ b2 g = b2 d ∧ e g = e d ∧
  max_grad_norm g = max_grad_norm d ∧ cycle_step g = cycle_step d.

(** ** Vocabulary for the properties of the update call *)

(** The state of [p] as an update reads it: the stored one, or the initial
    one when none is stored yet. *)
Definition state_of (w : world) (p : param_id) : param_state :=
  default (initial_state (heap w p)) (state (self w) !! p).

(** The step counter of [p]; 0 as long as no state is stored. *)
Definition counter (w : world) (p : param_id) : Z := step (state_of w p).

(** The updates of one call in the order the two loops make them. *)
Definition updates (groups : list param_group) : list (param_group * param_id) :=
  flat_map (λ g, map (pair g) (params g)) groups.

(** How often [p] is listed in the groups. *)
Definition listed (groups : list param_group) : list param_id :=
  concat (map params groups).

Definition has_gradient (w : world) (p : param_id) : Prop :=
  is_Some (grad (heap w p)).

Definition has_sparse_gradient (w : world) (p : param_id) : Prop :=
  ∃ gr, grad (heap w p) = Some gr ∧ is_sparse gr = true.

(** The world in which the updates start: after the closure has run. *)
Definition after_closure (closure : option ((param_id → parameter) →
                                            (param_id → parameter) * R))
    (w : world) : world := (run_closure closure w).1.

(** What one update of a dense gradient computes (source lines 117-135). *)
Definition clipped_gradient (group : defaults) (g : tensor) : tensor :=
  if decide (max_grad_norm group > 0) then clipped g (max_grad_norm group) else g.

Definition new_m (group : defaults) (s : param_state) (g : tensor) : tensor :=
  add_ (mul_ (next_m s) (b1 group)) (1 - b1 group) g.

Definition new_v (group : defaults) (s : param_state) (g : tensor) : tensor :=
  addcmul_ (mul_ (next_v s) (b2 group)) (1 - b2 group) g g.

Definition update_direction (group : defaults) (s : param_state)
    (d g : tensor) : tensor :=
  let update :=
    tensor_div (new_m group s g)
      (tensor_add_scalar (tensor_sqrt (new_v group s g)) (e group)) in
  if decide (weight_decay_rate group > 0.0)
  then tensor_add update (tensor_scale (weight_decay_rate group) d)
  else update.

(** One iteration of the flattened loops. *)
Definition update_of (gp : param_group * param_id) : M unit :=
  update_parameter gp.1 gp.2.

Definition occurrences_in (p : param_id) (l : list param_id) : nat :=
  length (filter (λ q, q = p) l).

(** The loss that the call hands back. *)
Definition loss_of (closure : option ((param_id → parameter) →
                                      (param_id → parameter) * R))
    (w : world) : option R :=
  match closure with
  | Some c => Some (c (heap w)).2
  | None => None
  end.

(** ** Two small worlds for the examples *)

(** One group with the default hyperparameters and a learning rate of
    0.001; parameter 1 has no gradient, parameter 2 a sparse one. *)
Definition sparse_world : world :=
  {| self := {| param_groups := [ {| params := [1; 2]%positive;
                                     hyper := default_args (Some 0.001) |} ];
                state := ∅ |};
     heap := λ p, match p with
                  | 2%positive =>
                      {| data := [2];
                         grad := Some {| is_sparse := true; grad_data := [] |} |}
                  | _ => {| data := [1]; grad := None |}
                  end |}.

(** One group with one parameter, whose gradient is dense. *)
Definition dense_world : world :=
  {| self := {| param_groups := [ {| params := [1%positive];
                                     hyper := default_args (Some 0.001) |} ];
                state := ∅ |};
     heap := λ _, {| data := [1];
                     grad := Some {| is_sparse := false; grad_data := [0.5] |} |} |}.

(** One parameter at step 1 in a group that uses warmup_fix and leaves
    [t_total] at its default. *)
Definition warmup_fix_group : param_group :=
  {| params := [1%positive];
     hyper := {| lr := Some 0.001; schedule := "warmup_fix"; warmup := 0.1;
                 t_total := (-1)%Z; b1 := 0.9; b2 := 0.999; e := 1e-6;
                 weight_decay_rate := 0.01; max_grad_norm := 1.0;
                 cycle_step := None |} |}.

Definition warmup_fix_world : world :=
  {| self := {| param_groups := [warmup_fix_group];
                state := {[ 1%positive :=
                              {| step := 1; next_m := [0]; next_v := [0] |} ]} |};
     heap := λ _, {| data := [1];
                     grad := Some {| is_sparse := false; grad_data := [0.5] |} |} |}.

(** ** The name predicate of the factory as the specification words it *)

Definition is_substring (sub s : string) : Prop :=
  ∃ pre post, s = (pre ++ sub ++ post)%string.

(** The name contains one of bias, LayerNorm.bias, LayerNorm.weight. *)
Definition no_decay_name (n : string) : Prop :=
  ∃ nd, nd ∈ no_decay ∧ is_substring nd n.

(** A model with three named parameters. *)
Definition example_model : list (string * param_id) :=
  [ ("encoder.dense.weight", 1%positive);
    ("encoder.dense.bias", 2%positive);
    ("pooler.dense.weight", 3%positive) ].

(** ** Vocabulary for the further properties *)

(** [n] update calls in a row, without closure. *)
Fixpoint repeat_step (n : nat) : M unit :=
  match n with
  | O => mret ()
  | S n' => BERTAdam_step None;; repeat_step n'
  end.

(** Every gradient and every stored moment has the shape of its
    parameter. *)
Definition well_shaped (w : world) : Prop :=
  ∀ p,
    (∀ gr, grad (heap w p) = Some gr →
           length (grad_data gr) = length (data (heap w p))) ∧
    (∀ s, state (self w) !! p = Some s →
          length (next_m s) = length (data (heap w p)) ∧
          length (next_v s) = length (data (heap w p))).

(** No stored second moment has a negative entry. *)
Definition nonneg_second_moments (w : world) : Prop :=
  ∀ p s, state (self w) !! p = Some s → Forall (λ x, 0 <= x) (next_v s).

(** A world whose only group passes the checks of the constructor with
    [t_total = 0]. *)
Definition zero_total_group : param_group :=
  {| params := [1%positive];
     hyper := {| lr := Some 0.001; schedule := "warmup_linear"; warmup := 0.1;
                 t_total := 0%Z; b1 := 0.9; b2 := 0.999; e := 1e-6;
                 weight_decay_rate := 0.01; max_grad_norm := -1;
                 cycle_step := None |} |}.

Definition zero_total_world : world :=
  {| self := {| param_groups := [zero_total_group]; state := ∅ |};
     heap := λ _, {| data := [1];
                     grad := Some {| is_sparse := false; grad_data := [0.5] |} |} |}.

(** One scalar parameter with a dense gradient in a group without
    clipping, schedule or cycle. *)
Definition plain_group : param_group :=
  {| params := [1%positive];
     hyper := {| lr := Some 0.001; schedule := "warmup_linear"; warmup := -1;
                 t_total := (-1)%Z; b1 := 0.9; b2 := 0.999; e := 1e-6;
                 weight_decay_rate := 0.01; max_grad_norm := -1;
                 cycle_step := None |} |}.

Definition plain_world : world :=
  {| self := {| param_groups := [plain_group]; state := ∅ |};
     heap := λ _, {| data := [1];
                     grad := Some {| is_sparse := false; grad_data := [0.5] |} |} |}.


(** * Properties *)

(** Case analysis on every comparison of reals left in the goal. *)
Ltac rcases :=
  repeat (case_decide; simpl in *; try lra; try congruence).

Lemma pydiv_ok x y : y ≠ 0 → pydiv x y = OK (x / y).
Proof. intros Hy. unfold pydiv. by rewrite decide_False. Qed.

Lemma pydiv_zero x : pydiv x 0 = Raise ZeroDivisionError.
Proof. unfold pydiv. by rewrite decide_True. Qed.

Lemma pymin_Rmin a b : pymin a b = Rmin a b.
Proof. unfold pymin, Rmin. destruct (Rle_dec a b); rcases. Qed.

Lemma SCHEDULES_lookup name f :
  SCHEDULES !! name = Some f →
  (name = "warmup_cosine" ∧ f = warmup_cosine) ∨
  (name = "warmup_constant" ∧ f = warmup_constant) ∨
  (name = "warmup_linear" ∧ f = warmup_linear) ∨
  (name = "warmup_fix" ∧ f = warmup_fix).
Proof.
  unfold SCHEDULES. intros H.
  repeat (apply lookup_insert_Some in H as [[<- <-]|[_ H]]; [tauto|]).
  by rewrite lookup_empty in H.
Qed.

Lemma div_nonneg a b : 0 <= a → 0 < b → 0 <= a / b.
Proof.
  intros Ha Hb. apply Rmult_le_pos; [done|].
  left. by apply Rinv_0_lt_compat.
Qed.

Lemma div_le_mono a b c : 0 < c → a <= b → a / c <= b / c.
Proof.
  intros Hc Hab. apply Rmult_le_compat_r; [|done].
  left. by apply Rinv_0_lt_compat.
Qed.

Lemma div_lt_1 a b : 0 < b → a < b → a / b < 1.
Proof.
  intros Hb Hab. replace 1 with (b / b) by (field; lra).
  apply Rmult_lt_compat_r; [by apply Rinv_0_lt_compat|done].
Qed.

Lemma div_ge_1 a b : 0 < b → b <= a → 1 <= a / b.
Proof.
  intros Hb Hab. replace 1 with (b / b) by (field; lra).
  by apply div_le_mono.
Qed.

(** ** The schedule functions *)

Lemma warmup_cosine_below x warmup :
  0 <= x < warmup → warmup_cosine x warmup = OK (x / warmup).
Proof.
  intros [H0 Hx]. unfold warmup_cosine.
  rewrite decide_True by done. apply pydiv_ok. lra.
Qed.

Lemma warmup_constant_below x warmup :
  0 <= x < warmup → warmup_constant x warmup = OK (x / warmup).
Proof.
  intros [H0 Hx]. unfold warmup_constant.
  rewrite decide_True by done. apply pydiv_ok. lra.
Qed.

Lemma warmup_linear_below x warmup :
  0 <= x < warmup → warmup_linear x warmup = OK (x / warmup).
Proof.
  intros [H0 Hx]. unfold warmup_linear.
  rewrite decide_True by done. apply pydiv_ok. lra.
Qed.

Lemma warmup_fix_value step warmup_step :
  warmup_step ≠ 0 →
  warmup_fix step warmup_step = OK (Rmin 1 (step / warmup_step)).
Proof.
  intros Hw. unfold warmup_fix. rewrite pydiv_ok by done. simpl.
  rewrite pymin_Rmin. do 2 f_equal. lra.
Qed.

Lemma warmup_fix_below step warmup_step :
  0 <= step < warmup_step → warmup_fix step warmup_step = OK (step / warmup_step).
Proof.
  intros [H0 Hs]. rewrite warmup_fix_value by lra. f_equal.
  apply Rmin_right. left. apply div_lt_1; lra.
Qed.

Lemma warmup_fix_above step warmup_step :
  0 < warmup_step → warmup_step <= step → warmup_fix step warmup_step = OK 1.0.
Proof.
  intros Hw Hs. rewrite warmup_fix_value by lra. f_equal.
  rewrite Rmin_left by (by apply div_ge_1). lra.
Qed.

Lemma warmup_constant_above x warmup :
  warmup <= x → warmup_constant x warmup = OK 1.0.
Proof. intros Hx. unfold warmup_constant. rewrite decide_False by lra. done. Qed.

Lemma warmup_linear_above x warmup :
  warmup <= x → warmup < 1 →
  warmup_linear x warmup = OK ((1 - x) / (1 - warmup)).
Proof.
  intros Hx Hw. unfold warmup_linear. rewrite decide_False by lra.
  rewrite pydiv_ok by lra. do 2 f_equal; lra.
Qed.

Lemma warmup_linear_at_warmup warmup :
  warmup < 1 → warmup_linear warmup warmup = OK 1.0.
Proof.
  intros Hw. rewrite warmup_linear_above by lra. f_equal.
  transitivity 1; [field; lra | lra].
Qed.

(** Past the warmup the cosine schedule hands a Python float to
    [torch.cos]. *)
Lemma warmup_cosine_above x warmup :
  warmup <= x → warmup_cosine x warmup = Raise TypeError.
Proof. intros Hx. unfold warmup_cosine. rewrite decide_False by lra. done. Qed.

(** The formula of the cosine branch is 0 at [x = 1] once [torch.cos] is
    given a tensor. *)
Lemma cosine_formula_at_one :
  (c ← torch_cos (Tensor0 (PI * 1.0)); OK (0.5 * (1.0 + c))) = OK 0.
Proof.
  simpl. replace (PI * 1.0) with PI by lra. rewrite cos_PI. f_equal. lra.
Qed.

(** C4, at the input the claim names: [warmup_cosine(1.0)] with the default
    warmup raises [TypeError] instead of returning a value close to 0. *)
Theorem warmup_cosine_at_one_raises :
  warmup_cosine 1.0 0.002 = Raise TypeError.
Proof. apply warmup_cosine_above. lra. Qed.

(** C8: for a positive [warmup_step], [warmup_fix] is non-decreasing in
    [step] and is exactly 1.0 from [warmup_step] on. *)
Theorem warmup_fix_monotone_clamped (warmup_step : R) :
  0 < warmup_step →
  (∀ s1 s2, s1 <= s2 →
     ∃ m1 m2, warmup_fix s1 warmup_step = OK m1 ∧
              warmup_fix s2 warmup_step = OK m2 ∧ m1 <= m2) ∧
  (∀ s, warmup_step <= s → warmup_fix s warmup_step = OK 1.0).
Proof.
  intros Hw. split.
  - intros s1 s2 Hs. eexists _, _.
    rewrite !warmup_fix_value by lra. split_and!; [done..|].
    apply Rle_min_compat_l. by apply div_le_mono.
  - intros s Hs. by apply warmup_fix_above.
Qed.

Lemma warmup_fix_monotone_clamped_witness :
  (∃ m1 m2, warmup_fix 1 4 = OK m1 ∧ warmup_fix 3 4 = OK m2 ∧ m1 <= m2) ∧
  warmup_fix 7 4 = OK 1.0.
Proof.
  destruct (warmup_fix_monotone_clamped 4 ltac:(lra)) as [Hmono Hclamp].
  split; [apply Hmono; lra | apply Hclamp; lra].
Defined.

(** C5 as stated fails: past the end of the schedule ([x > 1]) the linear
    schedule is negative. *)
Lemma warmup_linear_negative_past_end :
  warmup_linear 2 0.5 = OK (-2) ∧ ¬ (0 <= -2 <= 1).
Proof.
  split; [|lra]. rewrite warmup_linear_above by lra. f_equal. lra.
Qed.

(** C5, amended: for a warmup in (0,1), [warmup_constant] (for [x >= 0]) and
    [warmup_fix] (for [step >= 0] and [warmup_step > 0]) return a multiplier
    in [0,1]; [warmup_linear] does for [x] in [0,1] and returns a negative
    one for [x > 1]; [warmup_cosine] returns a multiplier in [0,1] for [x]
    in [0, warmup). *)
Theorem schedule_multiplier_bounds (warmup : R) :
  0 < warmup < 1 →
  (∀ x, 0 <= x → ∃ m, warmup_constant x warmup = OK m ∧ 0 <= m <= 1) ∧
  (∀ x, 0 <= x <= 1 → ∃ m, warmup_linear x warmup = OK m ∧ 0 <= m <= 1) ∧
  (∀ x, 1 < x → ∃ m, warmup_linear x warmup = OK m ∧ m < 0) ∧
  (∀ x, 0 <= x < warmup → ∃ m, warmup_cosine x warmup = OK m ∧ 0 <= m <= 1) ∧
  (∀ step warmup_step, 0 <= step → 0 < warmup_step →
     ∃ m, warmup_fix step warmup_step = OK m ∧ 0 <= m <= 1).
Proof.
  intros [Hw0 Hw1].
  assert (Hbelow : ∀ x, 0 <= x < warmup → 0 <= x / warmup <= 1).
  { intros x [Hx0 Hx]. split; [by apply div_nonneg|].
    left. by apply div_lt_1. }
  split_and!.
  - intros x Hx. destruct (decide (x < warmup)) as [Hlt|Hge].
    + eexists. rewrite warmup_constant_below by done. eauto.
    + eexists. rewrite warmup_constant_above by lra. split; [done|lra].
  - intros x [Hx0 Hx1]. destruct (decide (x < warmup)) as [Hlt|Hge].
    + eexists. rewrite warmup_linear_below by done. eauto.
    + eexists. rewrite warmup_linear_above by lra. split; [done|].
      split; [apply div_nonneg; lra|].
      destruct (decide (x = warmup)) as [->|Hne].
      * right. field. lra.
      * left. apply div_lt_1; lra.
  - intros x Hx. eexists. rewrite warmup_linear_above by lra. split; [done|].
    assert (0 < (x - 1) / (1 - warmup)).
    { apply Rmult_lt_0_compat; [lra|]. apply Rinv_0_lt_compat. lra. }
    replace ((1 - x) / (1 - warmup)) with (- ((x - 1) / (1 - warmup)))
      by (field; lra).
    lra.
  - intros x Hx. eexists. rewrite warmup_cosine_below by done. eauto.
  - intros s ws Hs Hws. eexists. rewrite warmup_fix_value by lra.
    split; [done|]. split.
    + apply Rmin_glb; [lra|]. by apply div_nonneg.
    + apply Rmin_l.
Qed.

Lemma schedule_multiplier_bounds_witness :
  ∃ m, warmup_linear 0.5 0.1 = OK m ∧ 0 <= m <= 1.
Proof.
  destruct (schedule_multiplier_bounds 0.1 ltac:(lra)) as (_ & Hlin & _).
  apply Hlin. lra.
Defined.

(** ** Construction *)

Lemma SCHEDULES_known name :
  name ∈ known_schedules ↔ is_Some (SCHEDULES !! name).
Proof.
  split.
  - unfold known_schedules. rewrite !elem_of_cons, elem_of_nil.
    intros [->|[->|[->|[->|[]]]]]; by eexists.
  - intros [f Hf]. apply SCHEDULES_lookup in Hf. unfold known_schedules.
    rewrite !elem_of_cons. tauto.
Qed.

Lemma SCHEDULES_unknown name :
  name ∉ known_schedules ↔ SCHEDULES !! name = None.
Proof. rewrite SCHEDULES_known, eq_None_not_Some. done. Qed.

Lemma BERTAdam_checks_valid a :
  valid_hyperparameters a → BERTAdam_checks a = OK ().
Proof.
  intros (Hlr & Hs & Hw & Hb1 & Hb2 & He).
  apply SCHEDULES_known in Hs as [f Hf].
  unfold BERTAdam_checks, raise_if.
  destruct (lr a) as [l|]; [specialize (Hlr l eq_refl)|];
    repeat (case_decide; simpl; try done; try lra; try congruence; try tauto).
Qed.

Lemma BERTAdam_checks_invalid a :
  ¬ valid_hyperparameters a →
  ∃ m, BERTAdam_checks a = Raise (ValueError m) ∧ names_offending_value a m.
Proof.
  intros Hinv. unfold BERTAdam_checks, raise_if.
  assert (Hlr : (∃ l, lr a = Some l ∧ ¬ l >= 0.0) ∨ (∀ l, lr a = Some l → 0 <= l)).
  { destruct (lr a) as [l|]; [|by right].
    destruct (decide (l >= 0.0)); [right|left; eauto].
    intros ? [= <-]. lra. }
  destruct Hlr as [(l & Hl & Hneg)|Hlr].
  { rewrite Hl. destruct (decide (¬ l >= 0.0)); [simpl|done].
    eexists. split; [done|]. simpl. split; [done|lra]. }
  assert (match lr a with
          | Some l => if decide (¬ l >= 0.0)
                      then Raise (ValueError (Invalid_learning_rate l)) else OK ()
          | None => OK ()
          end = OK ()) as ->.
  { destruct (lr a) as [l|]; [|done]. specialize (Hlr l eq_refl).
    destruct (decide (¬ l >= 0.0)); [lra|done]. }
  simpl.
  destruct (decide (SCHEDULES !! schedule a = None)) as [Hs|Hs]; simpl.
  { eexists. split; [done|]. simpl. split; [done|]. by apply SCHEDULES_unknown. }
  destruct (decide (¬ (0.0 <= warmup a ∧ warmup a < 1.0) ∧ ¬ warmup a = -1))
    as [Hw|Hw]; simpl.
  { eexists. split; [done|]. simpl. split; [done|]. lra. }
  destruct (decide (¬ (0.0 <= b1 a ∧ b1 a < 1.0))) as [Hb1|Hb1]; simpl.
  { eexists. split; [done|]. simpl. split; [done|]. lra. }
  destruct (decide (¬ (0.0 <= b2 a ∧ b2 a < 1.0))) as [Hb2|Hb2]; simpl.
  { eexists. split; [done|]. simpl. split; [done|]. lra. }
  destruct (decide (¬ e a >= 0.0)) as [He|He]; simpl.
  { eexists. split; [done|]. simpl. split; [done|]. lra. }
  destruct Hinv. split_and!; [done| |lra..].
  apply SCHEDULES_known. by apply not_eq_None_Some.
Qed.

Lemma names_offending_value_invalid a m :
  names_offending_value a m → ¬ valid_hyperparameters a.
Proof.
  intros Hm (Hlr & Hs & Hw & Hb1 & Hb2 & He).
  destruct m; simpl in Hm; try done; destruct Hm as [Heq Hbad]; subst;
    try tauto.
  apply Hbad. by apply Hlr.
Qed.

Lemma add_param_groups_takes_defaults d gs : ∀ groups groups',
  add_param_groups d groups gs = OK groups' →
  Forall (takes_defaults d) groups → Forall (takes_defaults d) groups'.
Proof.
  induction gs as [|g gs IH]; intros groups groups' Hadd Hall; simpl in Hadd.
  - by injection Hadd as <-.
  - unfold add_param_group in Hadd. case_decide; [done|]. simpl in Hadd.
    apply (IH _ _ Hadd). apply Forall_app. split; [done|].
    apply Forall_singleton. by repeat split.
Qed.

Lemma Optimizer_init_takes_defaults gs d o :
  Optimizer_init gs d = OK o → Forall (takes_defaults d) (param_groups o).
Proof.
  unfold Optimizer_init. destruct gs as [|g gs]; [done|].
  destruct (add_param_groups d [] (g :: gs)) as [groups|] eqn:Hadd; [|done].
  simpl. intros [= <-]. simpl.
  by apply (add_param_groups_takes_defaults _ _ _ _ Hadd).
Qed.

(** Decides the checks of the constructor on concrete arguments. *)
Ltac run_checks :=
  unfold BERTAdam, BERTAdam_init, BERTAdam_checks, raise_if; simpl;
  repeat match goal with
  | |- context [decide ?P] => destruct (decide P); simpl
  | H : SCHEDULES !! _ = None |- _ =>
      apply SCHEDULES_unknown in H; exfalso; apply H;
      unfold known_schedules; rewrite !elem_of_cons; tauto
  | H : ¬ (SCHEDULES !! _ = None) |- _ =>
      rewrite <- SCHEDULES_unknown in H; exfalso; apply H;
      unfold known_schedules; rewrite !elem_of_cons, elem_of_nil;
      intros [?|[?|[?|[?|[]]]]]; discriminate
  end; try done; try lra.

(** C3: construction fails with a [ValueError] that names an offending
    hyperparameter value exactly when a check of the specification fails;
    when all pass, the arguments reach the base class and the groups
    unchanged; and the six invalid arguments of the specification are
    refused. *)
Theorem BERTAdam_init_validation (gs : list group_spec) (a : defaults) :
  ((∃ m, BERTAdam_init gs a = Raise (ValueError m) ∧ names_offending_value a m)
   ↔ ¬ valid_hyperparameters a) ∧
  (valid_hyperparameters a →
   BERTAdam_init gs a = Optimizer_init gs a ∧
   ∀ o, BERTAdam_init gs a = OK o → Forall (takes_defaults a) (param_groups o)) ∧
  BERTAdam gs (Some (-1)) (-1) (-1) "warmup_linear" 0.9 0.999 1e-6 0.01 None 1.0
    = Raise (ValueError (Invalid_learning_rate (-1))) ∧
  (∀ l, 0 <= l →
   BERTAdam gs (Some l) (-1) (-1) "warmup_linear" 1.0 0.999 1e-6 0.01 None 1.0
     = Raise (ValueError (Invalid_b1 1.0)) ∧
   BERTAdam gs (Some l) (-1) (-1) "warmup_linear" 0.9 (-0.1) 1e-6 0.01 None 1.0
     = Raise (ValueError (Invalid_b2 (-0.1))) ∧
   BERTAdam gs (Some l) (-1) (-1) "warmup_linear" 0.9 0.999 (-1e-6) 0.01 None 1.0
     = Raise (ValueError (Invalid_epsilon (-1e-6))) ∧
   BERTAdam gs (Some l) (-1) (-1) "bogus" 0.9 0.999 1e-6 0.01 None 1.0
     = Raise (ValueError (Invalid_schedule "bogus")) ∧
   BERTAdam gs (Some l) 1.5 (-1) "warmup_linear" 0.9 0.999 1e-6 0.01 None 1.0
     = Raise (ValueError (Invalid_warmup 1.5))).
Proof.
  split_and!.
  - split.
    + intros (m & _ & Hm). by eapply names_offending_value_invalid.
    + intros Hinv. destruct (BERTAdam_checks_invalid a Hinv) as (m & Hm & Hoff).
      exists m. split; [|done]. unfold BERTAdam_init. by rewrite Hm.
  - intros Hvalid. unfold BERTAdam_init.
    rewrite (BERTAdam_checks_valid a Hvalid). simpl. split; [done|].
    intros o. apply Optimizer_init_takes_defaults.
  - run_checks.
  - intros l Hl. split_and!; run_checks.
Qed.

Lemma BERTAdam_init_validation_witness :
  BERTAdam_init [ {| spec_params := [1%positive]; spec_weight_decay_rate := None |} ]
    (default_args (Some 0.001))
  = Optimizer_init [ {| spec_params := [1%positive]; spec_weight_decay_rate := None |} ]
      (default_args (Some 0.001)).
Proof.
  refine (proj1 (proj1 (proj2 (BERTAdam_init_validation _ _)) _)).
  unfold valid_hyperparameters, default_args, known_schedules; simpl.
  split_and!; try lra.
  - intros l [= <-]. lra.
  - rewrite !elem_of_cons. tauto.
Defined.

(** ** The learning rate of an update *)

Lemma SCHEDULES_warmup_cosine : SCHEDULES !! "warmup_cosine" = Some warmup_cosine.
Proof. reflexivity. Qed.

Lemma SCHEDULES_warmup_constant : SCHEDULES !! "warmup_constant" = Some warmup_constant.
Proof. reflexivity. Qed.

Lemma SCHEDULES_warmup_linear : SCHEDULES !! "warmup_linear" = Some warmup_linear.
Proof. reflexivity. Qed.

Lemma SCHEDULES_warmup_fix : SCHEDULES !! "warmup_fix" = Some warmup_fix.
Proof. reflexivity. Qed.

Lemma SCHEDULES_getitem_Some name f :
  SCHEDULES !! name = Some f → SCHEDULES_getitem name = OK f.
Proof. intros H. unfold SCHEDULES_getitem. by rewrite H. Qed.

Lemma lr_scheduled_cyclical group step c l f :
  lr group = Some l → SCHEDULES !! schedule group = Some f →
  cycle_step group = Some c → (step > c)%Z → c ≠ 0%Z →
  lr_scheduled group step = OK (l * (1 - IZR (step mod c) / IZR c)).
Proof.
  intros Hl Hf Hc Hgt Hc0. unfold lr_scheduled.
  rewrite (SCHEDULES_getitem_Some _ _ Hf), Hc. simpl.
  rewrite decide_True by done. unfold pymod. rewrite decide_False by done.
  simpl. rewrite pydiv_ok by (by apply not_0_IZR). simpl.
  unfold times_lr. by rewrite Hl.
Qed.

Lemma lr_scheduled_not_cyclical group step f :
  SCHEDULES !! schedule group = Some f →
  ¬ (∃ c, cycle_step group = Some c ∧ (step > c)%Z) →
  lr_scheduled group step =
    if decide (t_total group ≠ (-1)%Z ∧ schedule group ≠ "warmup_fix") then
      x ← pydiv (IZR step) (IZR (t_total group));
      m ← f x (warmup group);
      times_lr group m
    else if decide (schedule group = "warmup_fix") then
      m ← f (IZR step) (warmup group * IZR (t_total group));
      times_lr group m
    else get_lr group.
Proof.
  intros Hf Hnc. unfold lr_scheduled.
  rewrite (SCHEDULES_getitem_Some _ _ Hf). simpl.
  destruct (cycle_step group) as [c|]; [|done].
  rewrite decide_False; [done|]. intros Hgt. apply Hnc. eauto.
Qed.

(** C2: the learning rate of an update follows the priority-ordered rule
    of the specification, and is 0.5 for [cycle_step=100], [lr=1.0] and
    step 150. *)
Theorem lr_scheduled_rule (group : defaults) (step : Z) (l : R)
    (f : R → R → result R) :
  lr group = Some l →
  SCHEDULES !! schedule group = Some f →
  let cyclical := ∃ c, cycle_step group = Some c ∧ (step > c)%Z in
  (∀ c, cycle_step group = Some c → (step > c)%Z → c ≠ 0%Z →
     lr_scheduled group step = OK (l * (1 - IZR (step mod c) / IZR c))) ∧
  (¬ cyclical → t_total group ≠ (-1)%Z → schedule group ≠ "warmup_fix" →
     lr_scheduled group step =
       x ← pydiv (IZR step) (IZR (t_total group));
       m ← f x (warmup group);
       OK (l * m)) ∧
  (¬ cyclical → schedule group = "warmup_fix" →
     lr_scheduled group step =
       m ← warmup_fix (IZR step) (warmup group * IZR (t_total group));
       OK (l * m)) ∧
  (¬ cyclical → t_total group = (-1)%Z → schedule group ≠ "warmup_fix" →
     lr_scheduled group step = OK l) ∧
  (cycle_step group = Some 100%Z → l = 1.0 → step = 150%Z →
     lr_scheduled group step = OK 0.5).
Proof.
  intros Hl Hf cyclical.
  assert (Htimes : ∀ m, times_lr group m = OK (l * m)).
  { intros m. unfold times_lr. by rewrite Hl. }
  split_and!.
  - intros c. by apply (lr_scheduled_cyclical _ _ _ _ f).
  - intros Hnc Ht Hs. rewrite (lr_scheduled_not_cyclical _ _ f) by done.
    rewrite decide_True by done.
    destruct (pydiv _ _) as [x|]; [simpl|done].
    destruct (f x (warmup group)); [simpl|done]. apply Htimes.
  - intros Hnc Hs. rewrite (lr_scheduled_not_cyclical _ _ f) by done.
    rewrite decide_False by tauto. rewrite decide_True by done.
    rewrite Hs in Hf. rewrite SCHEDULES_warmup_fix in Hf. injection Hf as <-.
    destruct (warmup_fix _ _); [simpl|done]. apply Htimes.
  - intros Hnc Ht Hs. rewrite (lr_scheduled_not_cyclical _ _ f) by done.
    rewrite decide_False by tauto. rewrite decide_False by done.
    unfold get_lr. by rewrite Hl.
  - intros Hc -> ->. rewrite (lr_scheduled_cyclical _ _ 100 1.0 f) by done.
    change (150 mod 100)%Z with 50%Z. f_equal. lra.
Qed.

Lemma lr_scheduled_rule_witness :
  lr_scheduled
    {| lr := Some 1.0; warmup := -1; t_total := (-1)%Z;
       schedule := "warmup_linear"; b1 := 0.9; b2 := 0.999; e := 1e-6;
       weight_decay_rate := 0.01; cycle_step := Some 100%Z;
       max_grad_norm := 1.0 |} 150 = OK 0.5.
Proof.
  eapply (lr_scheduled_rule _ 150 1.0 warmup_linear); reflexivity.
Defined.

(** ** One update of one parameter *)

Ltac unfold_M :=
  unfold mbind, mret, M_bind, M_ret, raise, lift, get_parameter, get_state,
    set_state, set_data, set_grad_data, clip_grad_norm_, get_grad_data in *;
  simpl in *.

Lemma update_parameter_absent group p w :
  grad (heap w p) = None → update_parameter group p w = (w, OK ()).
Proof. intros Hg. unfold update_parameter. unfold_M. by rewrite Hg. Qed.

Lemma update_parameter_sparse group p w gr :
  grad (heap w p) = Some gr → is_sparse gr = true →
  update_parameter group p w = (w, Raise RuntimeError_sparse).
Proof.
  intros Hg Hs. unfold update_parameter. unfold_M. by rewrite Hg, Hs.
Qed.

Lemma update_parameter_dense (group : param_group) p w gr :
  grad (heap w p) = Some gr → is_sparse gr = false →
  let s := state_of w p in
  let g := clipped_gradient group (grad_data gr) in
  ∃ w1,
    state (self w1) = <[p := {| step := step s; next_m := new_m group s g;
                                next_v := new_v group s g |}]> (state (self w)) ∧
    param_groups (self w1) = param_groups (self w) ∧
    heap w1 p = {| data := data (heap w p);
                   grad := Some {| is_sparse := false; grad_data := g |} |} ∧
    (∀ q, q ≠ p → heap w1 q = heap w q) ∧
    update_parameter group p w =
      match lr_scheduled group (step s) with
      | Raise x => (w1, Raise x)
      | OK lr_sched =>
          (with_state <[p := {| step := step s + 1; next_m := new_m group s g;
                                next_v := new_v group s g |}]>
             (with_parameter p (λ P,
                {| data := tensor_add (data (heap w p))
                     (tensor_neg (tensor_scale lr_sched
                        (update_direction group s (data (heap w p)) g)));
                   grad := grad P |}) w1), OK ())
      end.
Proof.
  intros Hg Hs s g. unfold update_parameter. unfold_M. rewrite Hg, Hs.
  subst s g. unfold state_of, clipped_gradient, new_m, new_v, update_direction.
  destruct gr as [sp gd]. simpl in Hs. subst sp.
  destruct (heap w p) as [d og] eqn:Hp. simpl in Hg. subst og.
  destruct (state (self w) !! p) as [s|] eqn:Hst; simpl;
    destruct (decide (max_grad_norm group > 0)) as [Hc|Hc]; simpl;
    rewrite ?Hp; simpl; rewrite ?decide_True by done; rewrite ?Hp; simpl.
  all: eexists; split_and!; [| | | |reflexivity]; simpl;
    rewrite ?decide_True by done; rewrite ?insert_insert_eq; rewrite ?Hp; try done.
  all: intros q Hq; by rewrite decide_False.
Qed.

Lemma counter_lookup w p :
  counter w p = from_option step 0%Z (state (self w) !! p).
Proof. unfold counter, state_of. by destruct (state (self w) !! p). Qed.

(** What any update of [p] leaves alone, and what it does to the counter. *)
Lemma update_parameter_effect (group : param_group) p w w' r :
  update_parameter group p w = (w', r) →
  param_groups (self w') = param_groups (self w) ∧
  (∀ q, q ≠ p → heap w' q = heap w q ∧
               state (self w') !! q = state (self w) !! q) ∧
  (∀ q, is_sparse <$> grad (heap w' q) = is_sparse <$> grad (heap w q)) ∧
  counter w' p =
    (counter w p +
     match r with
     | OK _ => if decide (has_gradient w p) then 1 else 0
     | Raise _ => 0
     end)%Z.
Proof.
  intros Hup.
  assert (Hcase : (∃ gr, grad (heap w p) = Some gr) ∨ grad (heap w p) = None)
    by (destruct (grad (heap w p)); eauto).
  destruct Hcase as [[gr Hg]|Hg]; last first.
  { rewrite update_parameter_absent in Hup by done. injection Hup as <- <-.
    split_and!; try done. unfold has_gradient. rewrite Hg.
    rewrite decide_False by (by intros [? ?]). lia. }
  destruct (is_sparse gr) eqn:Hs.
  { rewrite (update_parameter_sparse _ _ _ gr) in Hup by done.
    injection Hup as <- <-. split_and!; try done. lia. }
  destruct (update_parameter_dense group p w gr Hg Hs)
    as (w1 & Hst1 & Hpg1 & Hp1 & Hfr1 & Heq).
  rewrite Heq in Hup. clear Heq.
  assert (Hsp1 : ∀ q, is_sparse <$> grad (heap w1 q) = is_sparse <$> grad (heap w q)).
  { intros q. destruct (decide (q = p)) as [->|Hq]; [|by rewrite Hfr1].
    by rewrite Hp1, Hg; simpl; rewrite Hs. }
  destruct (lr_scheduled group (step (state_of w p))) as [lr_sched|x];
    injection Hup as <- <-; simpl.
  - split_and!; try done.
    + intros q Hq. rewrite decide_False by done. rewrite Hfr1 by done.
      split; [done|]. rewrite lookup_insert_ne by done. rewrite Hst1.
      by rewrite lookup_insert_ne.
    + intros q. destruct (decide (q = p)) as [->|Hq]; [|by apply Hsp1].
      simpl. by rewrite <- Hsp1.
    + rewrite counter_lookup; simpl. rewrite lookup_insert_eq. simpl.
      rewrite decide_True by (unfold has_gradient; by rewrite Hg).
      done.
  - split_and!; try done.
    + intros q Hq. rewrite Hfr1 by done. split; [done|]. rewrite Hst1.
      by rewrite lookup_insert_ne.
    + rewrite counter_lookup, Hst1, lookup_insert_eq. simpl. unfold counter. lia.
Qed.

(** ** The two loops *)

Lemma for_each_cons {A} (x : A) l body w :
  for_each (x :: l) body w =
    match body x w with
    | (w1, OK _) => for_each l body w1
    | (w1, Raise x) => (w1, Raise x)
    end.
Proof. reflexivity. Qed.

Lemma for_each_app {A} (l1 l2 : list A) body : ∀ w,
  for_each (l1 ++ l2) body w =
    match for_each l1 body w with
    | (w1, OK _) => for_each l2 body w1
    | (w1, Raise x) => (w1, Raise x)
    end.
Proof.
  induction l1 as [|x l1 IH]; intros w; [done|].
  rewrite <- app_comm_cons, !for_each_cons.
  destruct (body x w) as [w1 [[]|x1]]; [apply IH|done].
Qed.

Lemma for_each_map {A B} (f : A → B) (l : list A) body : ∀ w,
  for_each (map f l) body w = for_each l (λ a, body (f a)) w.
Proof.
  induction l as [|x l IH]; intros w; [done|].
  simpl map. rewrite !for_each_cons.
  destruct (body (f x) w) as [w1 [[]|x1]]; [apply IH|done].
Qed.

Lemma update_loop_updates groups : ∀ w,
  for_each groups update_group w = for_each (updates groups) update_of w.
Proof.
  induction groups as [|g groups IH]; intros w; [done|].
  unfold updates. simpl flat_map. rewrite for_each_app, for_each_cons.
  rewrite for_each_map. unfold update_group at 1.
  change (λ a, update_of (g, a)) with (update_parameter g).
  destruct (for_each (params g) (update_parameter g) w) as [w1 [[]|x1]];
    [apply IH|done].
Qed.

Lemma updates_listed groups : (updates groups).*2 = listed groups.
Proof.
  unfold updates, listed. induction groups as [|g groups IH]; [done|].
  simpl. rewrite fmap_app, IH. f_equal.
  induction (params g) as [|p l IHl]; [done|]. simpl. by f_equal.
Qed.

Lemma after_closure_self closure w : self (after_closure closure w) = self w.
Proof. unfold after_closure, run_closure. by destruct closure. Qed.

Lemma BERTAdam_step_unfold closure w :
  BERTAdam_step closure w =
    match for_each (updates (param_groups (self w))) update_of
            (after_closure closure w) with
    | (w', OK _) => (w', OK (loss_of closure w))
    | (w', Raise x) => (w', Raise x)
    end.
Proof.
  unfold BERTAdam_step, update_loop, after_closure, loss_of. unfold_M.
  destruct closure as [c|]; simpl; rewrite update_loop_updates;
    by destruct (for_each _ _ _) as [w' [[]|x]].
Qed.

Lemma has_gradient_preserved w w' q :
  is_sparse <$> grad (heap w' q) = is_sparse <$> grad (heap w q) →
  has_gradient w' q ↔ has_gradient w q.
Proof.
  unfold has_gradient. intros H.
  rewrite <- (fmap_is_Some is_sparse (grad (heap w' q))), H.
  apply fmap_is_Some.
Qed.

Lemma occurrences_in_cons_eq p l :
  occurrences_in p (p :: l) = S (occurrences_in p l).
Proof. unfold occurrences_in. by rewrite filter_cons_True. Qed.

Lemma occurrences_in_cons_ne p q l :
  q ≠ p → occurrences_in p (q :: l) = occurrences_in p l.
Proof. intros H. unfold occurrences_in. by rewrite filter_cons_False. Qed.

(** The counters along any run of updates, whether it completes or not. *)
Lemma for_each_updates_effect ps : ∀ w w' r,
  for_each ps update_of w = (w', r) →
  param_groups (self w') = param_groups (self w) ∧
  (∀ q, is_sparse <$> grad (heap w' q) = is_sparse <$> grad (heap w q)) ∧
  (∀ q, q ∉ ps.*2 → heap w' q = heap w q ∧
                    state (self w') !! q = state (self w) !! q) ∧
  (∀ q, (counter w q ≤ counter w' q)%Z) ∧
  (r = OK () → ∀ q,
     counter w' q =
       (counter w q +
        if decide (has_gradient w q) then Z.of_nat (occurrences_in q ps.*2)
        else 0)%Z).
Proof.
  induction ps as [|[g p] ps IH]; intros w w' r Hrun.
  - injection Hrun as <- <-. split_and!; try done.
    intros _ q. unfold occurrences_in. simpl. case_decide; lia.
  - rewrite for_each_cons in Hrun.
    destruct (update_of (g, p) w) as [w1 r1] eqn:Hup. unfold update_of in Hup.
    simpl in Hup. apply update_parameter_effect in Hup
      as (Hpg1 & Hfr1 & Hsp1 & Hc1).
    assert (Hcq : ∀ q, q ≠ p → counter w1 q = counter w q).
    { intros q Hq. rewrite !counter_lookup. by rewrite (proj2 (Hfr1 q Hq)). }
    destruct r1 as [[]|x1].
    + apply IH in Hrun as (Hpg & Hsp & Hfr & Hle & Hcnt).
      split_and!.
      * congruence.
      * intros q. by rewrite Hsp.
      * intros q Hq. rewrite fmap_cons in Hq. simpl in Hq.
        apply not_elem_of_cons in Hq as [Hqp Hq].
        destruct (Hfr q Hq) as [-> ->]. by apply Hfr1.
      * intros q. specialize (Hle q).
        destruct (decide (q = p)) as [->|Hq].
        -- rewrite Hc1 in Hle. case_decide; lia.
        -- rewrite (Hcq q Hq) in Hle. done.
      * intros Hr q. rewrite (Hcnt Hr q). rewrite fmap_cons. simpl.
        pose proof (has_gradient_preserved w w1 q (Hsp1 q)) as Hiff.
        destruct (decide (q = p)) as [->|Hq].
        -- rewrite Hc1, occurrences_in_cons_eq.
           destruct (decide (has_gradient w1 p)), (decide (has_gradient w p));
             try tauto; lia.
        -- rewrite (Hcq q Hq), occurrences_in_cons_ne by done.
           destruct (decide (has_gradient w1 q)), (decide (has_gradient w q));
             try tauto; lia.
    + injection Hrun as <- <-. split_and!; try done.
      * intros q Hq. rewrite fmap_cons in Hq. simpl in Hq.
        apply not_elem_of_cons in Hq as [Hqp Hq]. by apply Hfr1.
      * intros q. destruct (decide (q = p)) as [->|Hq].
        -- rewrite Hc1. lia.
        -- rewrite (Hcq q Hq). lia.
Qed.

(** A parameter with a sparse gradient is never written, and a run that
    comes to it does not complete. *)
Lemma for_each_updates_sparse ps p : ∀ w w' r,
  for_each ps update_of w = (w', r) →
  has_sparse_gradient w p →
  heap w' p = heap w p ∧
  state (self w') !! p = state (self w) !! p ∧
  (p ∈ ps.*2 → ∃ x, r = Raise x).
Proof.
  induction ps as [|[g q] ps IH]; intros w w' r Hrun Hsparse.
  - injection Hrun as <- <-. split_and!; try done. intros H. by apply elem_of_nil in H.
  - rewrite for_each_cons in Hrun. unfold update_of at 1 in Hrun. simpl in Hrun.
    destruct (decide (q = p)) as [->|Hq].
    + destruct Hsparse as (gr & Hg & Hs).
      rewrite (update_parameter_sparse _ _ _ gr) in Hrun by done.
      injection Hrun as <- <-. split_and!; eauto.
    + destruct (update_parameter g q w) as [w1 r1] eqn:Hup.
      apply update_parameter_effect in Hup as (_ & Hfr1 & _ & _).
      destruct (Hfr1 p (not_eq_sym Hq)) as [Hh1 Hst1].
      destruct r1 as [[]|x1].
      * apply IH in Hrun as (Hh & Hst & Hraise).
        -- split_and!; [congruence..|].
           rewrite fmap_cons. simpl. intros [?|?]%elem_of_cons; [done|auto].
        -- unfold has_sparse_gradient. by rewrite Hh1.
      * injection Hrun as <- <-. split_and!; eauto.
Qed.

Lemma lr_scheduled_constant (group : defaults) l k :
  lr group = Some l → schedule group ∈ known_schedules →
  schedule group ≠ "warmup_fix" → t_total group = (-1)%Z →
  cycle_step group = None →
  lr_scheduled group k = OK l.
Proof.
  intros Hl [f Hf]%SCHEDULES_known Hs Ht Hc.
  rewrite (lr_scheduled_not_cyclical _ _ f Hf).
  - rewrite decide_False by tauto. rewrite decide_False by done.
    unfold get_lr. by rewrite Hl.
  - intros (c & Hc' & _). congruence.
Qed.

(** A run of updates completes when no gradient is sparse and the learning
    rate of every group is defined. *)
Lemma for_each_updates_complete ps : ∀ w,
  (∀ g p, (g, p) ∈ ps →
     ¬ has_sparse_gradient w p ∧ ∀ k, ∃ l, lr_scheduled (hyper g) k = OK l) →
  ∃ w', for_each ps update_of w = (w', OK ()).
Proof.
  induction ps as [|[g p] ps IH]; intros w Hall; [by eexists|].
  rewrite for_each_cons. unfold update_of at 1. simpl.
  destruct (update_parameter g p w) as [w1 r1] eqn:Hup.
  assert (r1 = OK ()) as ->.
  { destruct (Hall g p ltac:(left)) as [Hns Hlr].
    assert (Hcase : (∃ gr, grad (heap w p) = Some gr) ∨ grad (heap w p) = None)
      by (destruct (grad (heap w p)); eauto).
    destruct Hcase as [[gr Hg]|Hg].
    - destruct (is_sparse gr) eqn:Hs; [destruct Hns; by exists gr|].
      destruct (update_parameter_dense g p w gr Hg Hs) as (w2 & _ & _ & _ & _ & Heq).
      rewrite Heq in Hup. destruct (Hlr (step (state_of w p))) as [l Hl].
      rewrite Hl in Hup. by injection Hup as _ <-.
    - rewrite update_parameter_absent in Hup by done. by injection Hup as _ <-. }
  apply update_parameter_effect in Hup as (_ & _ & Hsp & _).
  apply IH. intros g' q Hin. destruct (Hall g' q ltac:(by right)) as [Hns Hlr].
  split; [|done]. intros (gr & Hg & Hs). apply Hns.
  specialize (Hsp q). rewrite Hg in Hsp. simpl in Hsp. rewrite Hs in Hsp.
  destruct (grad (heap w q)) as [gr'|] eqn:Hg'; [|done].
  exists gr'. split; [done|]. simpl in Hsp. congruence.
Qed.

(** ** Sparse gradients *)

(** C6: when a listed parameter has a sparse gradient, the update call
    fails and neither the state nor the value of that parameter is written;
    the error is the unsupported-operation one whenever the updates that
    the loops make before reaching the parameter complete. *)
Theorem sparse_gradient_unsupported closure (w : world) (p : param_id) :
  p ∈ listed (param_groups (self w)) →
  has_sparse_gradient (after_closure closure w) p →
  (∃ w' x, BERTAdam_step closure w = (w', Raise x) ∧
           state (self w') !! p = state (self w) !! p ∧
           heap w' p = heap (after_closure closure w) p) ∧
  (∀ pre g post w1,
     updates (param_groups (self w)) = pre ++ (g, p) :: post →
     for_each pre update_of (after_closure closure w) = (w1, OK ()) →
     BERTAdam_step closure w = (w1, Raise RuntimeError_sparse) ∧
     state (self w1) !! p = state (self w) !! p ∧
     heap w1 p = heap (after_closure closure w) p).
Proof.
  intros Hin Hsparse. rewrite BERTAdam_step_unfold. split.
  - destruct (for_each _ _ _) as [w' r] eqn:Hrun.
    apply (for_each_updates_sparse _ p) in Hrun as (Hh & Hst & Hraise); [|done].
    rewrite after_closure_self in Hst.
    destruct Hraise as [x ->]; [by rewrite updates_listed|]. eauto.
  - intros pre g post w1 Hsplit Hpre. rewrite Hsplit, for_each_app, Hpre.
    apply (for_each_updates_sparse _ p) in Hpre as (Hh & Hst & _); [|done].
    rewrite after_closure_self in Hst.
    destruct Hsparse as (gr & Hg & Hs). rewrite for_each_cons.
    unfold update_of at 1. simpl.
    rewrite (update_parameter_sparse _ _ _ gr) by (by rewrite ?Hh). done.
Qed.

Lemma sparse_gradient_unsupported_witness :
  BERTAdam_step None sparse_world = (sparse_world, Raise RuntimeError_sparse).
Proof.
  refine (proj1 (proj2 (sparse_gradient_unsupported None sparse_world 2%positive _ _)
                  [(_, 1%positive)] _ [] sparse_world _ _)).
  - unfold listed. simpl. rewrite !elem_of_cons. tauto.
  - eexists. split; reflexivity.
  - reflexivity.
  - reflexivity.
Defined.

(** ** The step counter *)

Lemma counter_after_closure closure w p :
  counter (after_closure closure w) p = counter w p.
Proof. by rewrite !counter_lookup, after_closure_self. Qed.

Lemma BERTAdam_step_effect closure w w' r :
  BERTAdam_step closure w = (w', r) →
  param_groups (self w') = param_groups (self w) ∧
  (∀ q, has_gradient w' q ↔ has_gradient (after_closure closure w) q) ∧
  (∀ q, (counter w q ≤ counter w' q)%Z) ∧
  (∀ loss, r = OK loss → ∀ q,
     counter w' q =
       (counter w q +
        if decide (has_gradient (after_closure closure w) q)
        then Z.of_nat (occurrences_in q (listed (param_groups (self w))))
        else 0)%Z).
Proof.
  rewrite BERTAdam_step_unfold.
  destruct (for_each _ _ _) as [w1 r1] eqn:Hrun.
  apply for_each_updates_effect in Hrun as (Hpg & Hsp & _ & Hle & Hcnt).
  rewrite after_closure_self in Hpg. rewrite updates_listed in Hcnt.
  assert (Hgr : ∀ q, has_gradient w1 q ↔ has_gradient (after_closure closure w) q).
  { intros q. by apply has_gradient_preserved. }
  assert (Hle' : ∀ q, (counter w q ≤ counter w1 q)%Z).
  { intros q. specialize (Hle q). by rewrite counter_after_closure in Hle. }
  destruct r1 as [[]|x]; intros [= <- <-]; split_and!; try done.
  intros loss _ q. rewrite (Hcnt eq_refl q). by rewrite counter_after_closure.
Qed.

(** C7: the step counter of a parameter never decreases; an update call
    that completes adds exactly 1 to the counter of every parameter that
    has a gradient and is listed once in the groups, whatever else the
    groups hold, and leaves the counter of a parameter without gradient
    as it is; two calls in a row add 1 each. *)
Theorem step_counter_increments closure (w w' : world) r :
  BERTAdam_step closure w = (w', r) →
  let w0 := after_closure closure w in
  let groups := param_groups (self w) in
  (∀ p, (counter w p ≤ counter w' p)%Z) ∧
  (∀ loss, r = OK loss → ∀ p,
     (has_gradient w0 p → occurrences_in p (listed groups) = 1%nat →
      counter w' p = (counter w p + 1)%Z) ∧
     (¬ has_gradient w0 p → counter w' p = counter w p)) ∧
  (∀ loss w'' loss', r = OK loss →
     BERTAdam_step None w' = (w'', OK loss') → ∀ p,
     has_gradient w0 p → occurrences_in p (listed groups) = 1%nat →
     counter w' p = (counter w p + 1)%Z ∧
     counter w'' p = (counter w' p + 1)%Z).
Proof.
  intros Hstep w0 groups.
  destruct (BERTAdam_step_effect _ _ _ _ Hstep) as (Hpg & Hgr & Hle & Hcnt).
  assert (Hone : ∀ loss, r = OK loss → ∀ p,
    has_gradient w0 p → occurrences_in p (listed groups) = 1%nat →
    counter w' p = (counter w p + 1)%Z).
  { intros loss Hr p Hg Hocc. rewrite (Hcnt loss Hr p).
    rewrite decide_True by done. fold groups. rewrite Hocc. lia. }
  split_and!; [done| |].
  - intros loss Hr p. split; [by apply (Hone loss)|].
    intros Hg. rewrite (Hcnt loss Hr p). rewrite decide_False by done. lia.
  - intros loss w'' loss' Hr Hstep' p Hg Hocc. split; [by apply (Hone loss)|].
    destruct (BERTAdam_step_effect _ _ _ _ Hstep') as (_ & _ & _ & Hcnt').
    rewrite (Hcnt' loss' eq_refl p). rewrite Hpg. fold groups. rewrite Hocc.
    rewrite decide_True; [lia|]. by apply Hgr.
Qed.

Lemma dense_world_completes :
  ∃ w', BERTAdam_step None dense_world = (w', OK None).
Proof.
  rewrite BERTAdam_step_unfold.
  destruct (for_each_updates_complete
              (updates (param_groups (self dense_world)))
              (after_closure None dense_world)) as [w' Hw'].
  - intros g p [[= -> ->]|[]%elem_of_nil]%elem_of_cons. split.
    + intros (gr & [= <-] & Hs). done.
    + intros k. exists 0.001. apply lr_scheduled_constant; try done.
      unfold known_schedules. simpl. rewrite !elem_of_cons. tauto.
  - exists w'. by rewrite Hw'.
Qed.

Lemma step_counter_increments_witness :
  ∃ w', BERTAdam_step None dense_world = (w', OK None) ∧
        counter w' 1%positive = 1%Z.
Proof.
  destruct dense_world_completes as [w' Hw']. exists w'. split; [done|].
  refine (proj1 (proj1 (proj2 (step_counter_increments None dense_world w' _ Hw'))
                  None eq_refl 1%positive) _ _).
  - by eexists.
  - reflexivity.
Defined.

(** ** One update of a scalar parameter *)

(** C1: one update call on a single scalar parameter with gradient [g],
    no weight decay, no clipping, the default betas and epsilon, no
    schedule ([t_total = -1], a schedule name other than warmup_fix, no
    cycle) and zero moments to start from. *)
Theorem one_update_scalar (st : gmap param_id param_state)
    (h : param_id → parameter) (p : param_id) (old g l wu : R) (sch : string) :
  let group :=
    {| params := [p];
       hyper := {| lr := Some l; schedule := sch; warmup := wu;
                   t_total := (-1)%Z; b1 := 0.9; b2 := 0.999; e := 1e-6;
                   weight_decay_rate := 0; max_grad_norm := -1;
                   cycle_step := None |} |} in
  let w := {| self := {| param_groups := [group]; state := st |}; heap := h |} in
  h p = {| data := [old];
           grad := Some {| is_sparse := false; grad_data := [g] |} |} →
  sch ∈ known_schedules → sch ≠ "warmup_fix" →
  next_m (state_of w p) = [0] → next_v (state_of w p) = [0] →
  let first_moment' := 0.1 * g in
  let second_moment' := 0.001 * g ^ 2 in
  let update := first_moment' / (sqrt second_moment' + 1e-6) in
  ∃ w', BERTAdam_step None w = (w', OK None) ∧
        state (self w') !! p =
          Some {| step := counter w p + 1; next_m := [first_moment'];
                  next_v := [second_moment'] |} ∧
        update_direction group (state_of w p) [old] [g] = [update] ∧
        data (heap w' p) = [old - l * update].
Proof.
  intros group w Hp Hsch Hfix Hm Hv m' v' update.
  assert (Hg : clipped_gradient group [g] = [g]).
  { unfold clipped_gradient. simpl. rewrite decide_False; [done|lra]. }
  assert (Hm' : new_m group (state_of w p) [g] = [m']).
  { unfold new_m. rewrite Hm. simpl. unfold m'. f_equal. lra. }
  assert (Hv' : new_v group (state_of w p) [g] = [v']).
  { unfold new_v, addcmul_, mul_. rewrite Hv. simpl. unfold v'. f_equal.
    replace (g * (g * 1)) with (g * g) by ring. lra. }
  assert (Hu : update_direction group (state_of w p) [old] [g] = [update]).
  { unfold update_direction. rewrite Hm', Hv'. simpl.
    rewrite decide_False; [done|lra]. }
  rewrite BERTAdam_step_unfold.
  change (updates (param_groups (self w))) with [(group, p)].
  change (after_closure None w) with w.
  rewrite for_each_cons.
  change (update_of (group, p)) with (update_parameter group p).
  assert (Hgrad : grad (heap w p) =
                  Some {| is_sparse := false; grad_data := [g] |}).
  { simpl. by rewrite Hp. }
  destruct (update_parameter_dense group p w _ Hgrad eq_refl)
    as (w1 & Hst1 & _ & Hp1 & _ & Heq).
  change (heap w p) with (h p) in Heq. rewrite Hp in Heq.
  cbn [grad_data data] in Heq. rewrite Hg, Hm', Hv', Hu in Heq.
  rewrite (lr_scheduled_constant _ l) in Heq by done.
  rewrite Heq. clear Heq.
  change (for_each [] update_of ?w') with (w', @OK unit ()).
  eexists. split_and!; [done| | |].
  - unfold with_state. cbn [self state]. by rewrite lookup_insert_eq.
  - done.
  - unfold with_state, with_parameter. cbn [heap].
    by rewrite decide_True.
Qed.

Lemma one_update_scalar_witness :
  ∃ w', BERTAdam_step None
          {| self := {| param_groups :=
                          [ {| params := [1%positive];
                               hyper := {| lr := Some 0.001;
                                           schedule := "warmup_linear";
                                           warmup := -1; t_total := (-1)%Z;
                                           b1 := 0.9; b2 := 0.999; e := 1e-6;
                                           weight_decay_rate := 0;
                                           max_grad_norm := -1;
                                           cycle_step := None |} |} ];
                        state := ∅ |};
             heap := λ _, {| data := [1];
                             grad := Some {| is_sparse := false;
                                             grad_data := [2] |} |} |}
        = (w', OK None) ∧
        data (heap w' 1%positive) =
          [1 - 0.001 * (0.1 * 2 / (sqrt (0.001 * 2 ^ 2) + 1e-6))].
Proof.
  destruct (one_update_scalar ∅
              (λ _, {| data := [1];
                       grad := Some {| is_sparse := false; grad_data := [2] |} |})
              1%positive 1 2 0.001 (-1) "warmup_linear")
    as (w' & Hstep & _ & _ & Hdata); try done.
  - unfold known_schedules. rewrite !elem_of_cons. tauto.
  - by exists w'.
Defined.

(** ** warmup_fix without a total number of steps *)

Lemma lr_scheduled_warmup_fix (group : defaults) l k :
  lr group = Some l → schedule group = "warmup_fix" →
  cycle_step group = None →
  warmup group * IZR (t_total group) ≠ 0 →
  lr_scheduled group k =
    OK (l * pymin 1.0 (IZR k / (warmup group * IZR (t_total group)))).
Proof.
  intros Hl Hs Hc Hw.
  rewrite (lr_scheduled_not_cyclical _ _ warmup_fix).
  - rewrite decide_False by tauto. rewrite decide_True by done.
    unfold warmup_fix. rewrite pydiv_ok by done. simpl.
    unfold times_lr. by rewrite Hl.
  - rewrite Hs. apply SCHEDULES_warmup_fix.
  - intros (c & Hc' & _). congruence.
Qed.

(** C10: with the schedule warmup_fix, [t_total] left at -1, a positive
    warmup and a positive learning rate, from step 1 on the learning rate
    of an update is [lr * min(1.0, step / (warmup * -1))], a negative
    number, and the update adds a positive multiple of the update
    direction to every entry of the parameter instead of subtracting
    one. *)
Theorem warmup_fix_default_t_total_ascends (group : param_group)
    (p : param_id) (w : world) (gr : gradient) (l : R) :
  schedule group = "warmup_fix" → t_total group = (-1)%Z →
  cycle_step group = None →
  0 < warmup group → lr group = Some l → 0 < l →
  (1 ≤ counter w p)%Z →
  grad (heap w p) = Some gr → is_sparse gr = false →
  let lr_sched := l * pymin 1.0 (IZR (counter w p) / (warmup group * -1)) in
  let update := update_direction group (state_of w p) (data (heap w p))
                  (clipped_gradient group (grad_data gr)) in
  lr_scheduled group (counter w p) = OK lr_sched ∧
  lr_sched < 0 ∧
  ∃ w', update_parameter group p w = (w', OK ()) ∧
        ∀ i d u, data (heap w p) !! i = Some d → update !! i = Some u →
                 data (heap w' p) !! i = Some (d + (- lr_sched) * u).
Proof.
  intros Hs Ht Hc Hw Hl Hl0 Hk Hg Hsp lr_sched update.
  assert (Hlr : lr_scheduled group (counter w p) = OK lr_sched).
  { rewrite (lr_scheduled_warmup_fix _ l) by (rewrite ?Ht; done || lra).
    by rewrite Ht. }
  assert (Hneg : lr_sched < 0).
  { unfold lr_sched, pymin.
    assert (1 <= IZR (counter w p)) by (by apply IZR_le).
    assert (0 < IZR (counter w p) / warmup group).
    { apply Rmult_lt_0_compat; [lra|]. by apply Rinv_0_lt_compat. }
    replace (IZR (counter w p) / (warmup group * -1))
      with (- (IZR (counter w p) / warmup group)) by (field; lra).
    rewrite decide_True by lra. nra. }
  split_and!; [done..|].
  destruct (update_parameter_dense group p w gr Hg Hsp)
    as (w1 & _ & _ & _ & _ & Heq).
  fold (counter w p) in Heq. rewrite Hlr in Heq.
  eexists. split; [exact Heq|].
  intros i d u Hd Hu. unfold with_state, with_parameter. cbn [heap data].
  rewrite decide_True by done. cbn [data].
  unfold tensor_add, tensor_neg, tensor_scale.
  rewrite lookup_zip_with, Hd. simpl.
  rewrite !list_lookup_fmap. fold update. rewrite Hu. simpl.
  f_equal. ring.
Qed.

Lemma warmup_fix_default_t_total_ascends_witness :
  ∃ lr_sched,
    lr_scheduled warmup_fix_group (counter warmup_fix_world 1%positive)
      = OK lr_sched ∧ lr_sched < 0.
Proof.
  assert (Hc : counter warmup_fix_world 1%positive = 1%Z).
  { rewrite counter_lookup. unfold warmup_fix_world. simpl.
    by rewrite lookup_singleton_eq. }
  assert (Hk : (1 ≤ counter warmup_fix_world 1%positive)%Z) by (rewrite Hc; lia).
  assert (Hw : 0 < warmup warmup_fix_group) by (simpl; lra).
  assert (Hl : 0 < 0.001) by lra.
  destruct (warmup_fix_default_t_total_ascends warmup_fix_group 1%positive
              warmup_fix_world {| is_sparse := false; grad_data := [0.5] |} 0.001
              eq_refl eq_refl eq_refl Hw eq_refl Hl Hk eq_refl eq_refl)
    as (Hlr & Hneg & _).
  eauto.
Defined.

(** ** The parameter groups of the factory *)

Lemma prefix_spec sub : ∀ s,
  String.prefix sub s = true ↔ ∃ post, s = (sub ++ post)%string.
Proof.
  induction sub as [|a sub IH]; intros s.
  - split; [intros _; by exists s|intros _; by destruct s].
  - destruct s as [|b s]; simpl.
    + split; [done|]. by intros [post ?].
    + destruct (Ascii.ascii_dec a b) as [->|Hab].
      * rewrite IH. split; intros [post Hpost]; exists post.
        -- simpl. by rewrite Hpost.
        -- simpl in Hpost. by injection Hpost.
      * split; [done|]. intros [post Hpost]. simpl in Hpost.
        injection Hpost as Heq _. by destruct Hab.
Qed.

Lemma contains_spec sub : ∀ s, contains sub s = true ↔ is_substring sub s.
Proof.
  unfold is_substring. induction s as [|c s IH].
  - change (contains sub "") with (String.prefix sub "" || false).
    rewrite orb_false_r, prefix_spec. split.
    + intros [post Hpost]. by exists ""%string, post.
    + intros (pre & post & Hs). destruct pre; [by exists post|done].
  - change (contains sub (String c s))
      with (String.prefix sub (String c s) || contains sub s).
    rewrite orb_true_iff, prefix_spec, IH. split.
    + intros [[post Hpost]|(pre & post & Hs)].
      * by exists ""%string, post.
      * exists (String c pre), post. simpl. by rewrite Hs.
    + intros (pre & post & Hs). destruct pre as [|c' pre].
      * left. by exists post.
      * right. injection Hs as _ Hs. by exists pre, post.
Qed.

Lemma any_no_decay_spec n : any_no_decay n = true ↔ no_decay_name n.
Proof.
  unfold any_no_decay, no_decay_name. rewrite existsb_exists.
  split; intros (nd & Hin & Hc); exists nd.
  - by rewrite list_elem_of_In, <- contains_spec.
  - by rewrite <- list_elem_of_In, contains_spec.
Qed.

Lemma param_optimizer_spec named_parameters opt_pooler np :
  np ∈ param_optimizer named_parameters opt_pooler ↔
  np ∈ named_parameters ∧ (opt_pooler = false → ¬ is_substring "pooler" np.1).
Proof.
  unfold param_optimizer. destruct opt_pooler.
  - split; [by intros ?|by intros [? _]].
  - rewrite list_elem_of_filter, <- contains_spec, not_true_iff_false. tauto.
Qed.

Lemma Optimizer_init_two d o (decay nodecay : group_spec) :
  Optimizer_init [decay; nodecay] d = OK o →
  ∃ g1 g2, param_groups o = [g1; g2] ∧
    params g1 = spec_params decay ∧ params g2 = spec_params nodecay ∧
    weight_decay_rate g1 = default (weight_decay_rate d) (spec_weight_decay_rate decay) ∧
    weight_decay_rate g2 = default (weight_decay_rate d) (spec_weight_decay_rate nodecay).
Proof.
  unfold Optimizer_init, add_param_groups, add_param_group.
  repeat (case_decide; simpl; [done|]).
  intros [= <-]. by eexists _, _.
Qed.

Lemma Optimizer_init_two_disjoint d (decay nodecay : group_spec) :
  (∀ p, p ∈ spec_params nodecay → p ∉ spec_params decay) →
  ∃ o, Optimizer_init [decay; nodecay] d = OK o.
Proof.
  intros Hdis. unfold Optimizer_init, add_param_groups, add_param_group.
  rewrite decide_False.
  2: { rewrite Exists_exists. intros (p & _ & Hp). simpl in Hp.
       by apply elem_of_nil in Hp. }
  simpl. rewrite decide_False; [by eexists|].
  rewrite Exists_exists. intros (p & Hp & Hp'). simpl in Hp'.
  rewrite app_nil_r in Hp'. by apply (Hdis p).
Qed.

Lemma BERTAdam_init_OK gs a o :
  BERTAdam_init gs a = OK o → Optimizer_init gs a = OK o.
Proof.
  unfold BERTAdam_init. by destruct (BERTAdam_checks a) as [[]|].
Qed.

(** C9: the factory builds exactly two groups; the kept parameters (all of
    them, or those whose name does not contain pooler) are split by the
    name predicate, each entry going to exactly one group; the group of the
    matching names is given the weight decay rate 0, and these are the
    groups of the optimizer that the factory returns. *)
Theorem optimizer_parameters_partition
    (named_parameters : list (string * param_id)) (opt_pooler : bool)
    (weight_decay_rate0 : R) :
  let kept := param_optimizer named_parameters opt_pooler in
  ∃ decay nodecay,
    optimizer_parameters named_parameters opt_pooler weight_decay_rate0
      = [decay; nodecay] ∧
    (∀ np, np ∈ kept ↔
       np ∈ named_parameters ∧
       (opt_pooler = false → ¬ is_substring "pooler" np.1)) ∧
    spec_params nodecay = (filter (λ np, any_no_decay np.1 = true) kept).*2 ∧
    spec_params decay = (filter (λ np, ¬ any_no_decay np.1 = true) kept).*2 ∧
    (∀ n, any_no_decay n = true ↔ no_decay_name n) ∧
    spec_params nodecay ++ spec_params decay ≡ₚ kept.*2 ∧
    (NoDup kept.*2 → ∀ p, p ∈ spec_params nodecay → p ∉ spec_params decay) ∧
    spec_weight_decay_rate decay = Some weight_decay_rate0 ∧
    spec_weight_decay_rate nodecay = Some 0 ∧
    (∀ apex lr0 total schedule0 warmup_rate max_norm o,
       get_optimization apex named_parameters false lr0 total schedule0
         warmup_rate weight_decay_rate0 max_norm opt_pooler
         = OK (Built_BERTAdam o) →
       ∃ g1 g2, param_groups o = [g1; g2] ∧
         params g1 = spec_params decay ∧ params g2 = spec_params nodecay ∧
         weight_decay_rate g1 = weight_decay_rate0 ∧
         weight_decay_rate g2 = 0) ∧
    (∀ apex lr0 total schedule0 warmup_rate max_norm gs lr1 max_norm1,
       get_optimization apex named_parameters true lr0 total schedule0
         warmup_rate weight_decay_rate0 max_norm opt_pooler
         = OK (Built_FP16_FusedAdam gs lr1 max_norm1) →
       gs = [decay; nodecay]) ∧
    (∀ apex lr0 total schedule0 warmup_rate max_norm,
       0 <= lr0 → schedule0 ∈ known_schedules → 0 <= warmup_rate < 1 →
       NoDup kept.*2 →
       ∃ o, get_optimization apex named_parameters false lr0 total schedule0
              warmup_rate weight_decay_rate0 max_norm opt_pooler
            = OK (Built_BERTAdam o)).
Proof.
  intros kept. eexists _, _. split; [reflexivity|]. simpl. fold kept.
  assert (Hsame : filter (λ n : string * param_id, any_no_decay n.1 = false) kept
                  = filter (λ np, ¬ any_no_decay np.1 = true) kept).
  { apply list_filter_iff. intros np. by rewrite not_true_iff_false. }
  assert (Hperm : (filter (λ np : string * param_id, any_no_decay np.1 = true) kept).*2 ++
                  (filter (λ np, ¬ any_no_decay np.1 = true) kept).*2 ≡ₚ kept.*2).
  { rewrite <- fmap_app. apply fmap_Permutation, filter_app_complement. }
  split_and!.
  - intros np. apply param_optimizer_spec.
  - done.
  - by rewrite Hsame.
  - apply any_no_decay_spec.
  - by rewrite Hsame.
  - rewrite Hsame. intros Hnd p Hp1 Hp2. rewrite <- Hperm in Hnd.
    apply NoDup_app in Hnd as (_ & Hdis & _). by apply (Hdis p).
  - done.
  - f_equal. lra.
  - intros apex lr0 total schedule0 warmup_rate max_norm o.
    unfold get_optimization. case_decide; [|done].
    unfold optimizer_parameters. fold kept.
    match goal with
    | |- context [BERTAdam_init ?gs ?d] =>
        destruct (BERTAdam_init gs d) as [o'|] eqn:Hinit; [|done]
    end.
    intros [= ->]. apply BERTAdam_init_OK in Hinit.
    apply Optimizer_init_two in Hinit
      as (g1 & g2 & Hgs & Hp1 & Hp2 & Hw1 & Hw2).
    exists g1, g2. split_and!; try done. simpl in Hw2. rewrite Hw2. lra.
  - intros apex lr0 total schedule0 warmup_rate max_norm gs lr1 max_norm1.
    unfold get_optimization. case_decide; [|done].
    destruct apex; [|done]. by intros [= <- _ _].
  - intros apex lr0 total schedule0 warmup_rate max_norm Hlr Hsch Hw Hnd.
    unfold get_optimization. rewrite decide_True by lra.
    unfold optimizer_parameters. fold kept. unfold BERTAdam_init.
    rewrite BERTAdam_checks_valid.
    2: { unfold valid_hyperparameters. simpl.
         split_and!; try done; try lra; by intros l [= <-]. }
    match goal with
    | |- context [Optimizer_init [?d; ?n] ?a] =>
        destruct (Optimizer_init_two_disjoint a d n) as [o Ho]
    end.
    + simpl. rewrite Hsame. intros p Hp1 Hp2. rewrite <- Hperm in Hnd.
      apply NoDup_app in Hnd as (_ & Hdis & _). by apply (Hdis p).
    + exists o. simpl. simpl in Ho. by rewrite Ho.
Qed.

Lemma optimizer_parameters_partition_witness :
  ∃ o g1 g2,
    get_optimization false example_model false 0.001 100 "warmup_linear"
      0.1 0.01 1.0 false = OK (Built_BERTAdam o) ∧
    param_groups o = [g1; g2] ∧
    params g1 = [1%positive] ∧ params g2 = [2%positive] ∧
    weight_decay_rate g2 = 0.
Proof.
  destruct (optimizer_parameters_partition example_model false 0.01)
    as (decay & nodecay & Heq & _ & _ & _ & _ & _ & _ & _ & _ & Hgroups & _ & Hret).
  injection Heq as <- <-.
  destruct (Hret false 0.001 100%Z "warmup_linear"%string 0.1 1.0)
    as [o Ho].
  - lra.
  - unfold known_schedules. rewrite !elem_of_cons. tauto.
  - lra.
  - unfold param_optimizer, example_model.
    change (NoDup [1%positive; 2%positive]).
    repeat (apply NoDup_cons; split;
            [rewrite ?elem_of_cons, elem_of_nil; intuition discriminate|]).
    apply NoDup_nil_2.
  - destruct (Hgroups _ _ _ _ _ _ _ Ho) as (g1 & g2 & Hgs & Hp1 & Hp2 & _ & Hw2).
    by exists o, g1, g2.
Defined.


(** * Further properties of the code *)

(** ** The order of the checks of the constructor *)

Lemma raise_if_True (failed : Prop) `{!Decision failed} m :
  failed → raise_if failed m = Raise (ValueError m).
Proof. intros H. unfold raise_if. by rewrite decide_True. Qed.

Lemma raise_if_False (failed : Prop) `{!Decision failed} m :
  ¬ failed → raise_if failed m = OK ().
Proof. intros H. unfold raise_if. by rewrite decide_False. Qed.

Lemma BERTAdam_checks_first_failure (a : defaults) :
  let lr_ok := ∀ l, lr a = Some l → l >= 0 in
  let schedule_ok := schedule a ∈ known_schedules in
  let warmup_ok := (0 <= warmup a ∧ warmup a < 1) ∨ warmup a = -1 in
  let b1_ok := 0 <= b1 a ∧ b1 a < 1 in
  let b2_ok := 0 <= b2 a ∧ b2 a < 1 in
  (∀ l, lr a = Some l → ¬ l >= 0 →
     BERTAdam_checks a = Raise (ValueError (Invalid_learning_rate l))) ∧
  (lr_ok → ¬ schedule_ok →
     BERTAdam_checks a = Raise (ValueError (Invalid_schedule (schedule a)))) ∧
  (lr_ok → schedule_ok → ¬ warmup_ok →
     BERTAdam_checks a = Raise (ValueError (Invalid_warmup (warmup a)))) ∧
  (lr_ok → schedule_ok → warmup_ok → ¬ b1_ok →
     BERTAdam_checks a = Raise (ValueError (Invalid_b1 (b1 a)))) ∧
  (lr_ok → schedule_ok → warmup_ok → b1_ok → ¬ b2_ok →
     BERTAdam_checks a = Raise (ValueError (Invalid_b2 (b2 a)))) ∧
  (lr_ok → schedule_ok → warmup_ok → b1_ok → b2_ok → ¬ e a >= 0 →
     BERTAdam_checks a = Raise (ValueError (Invalid_epsilon (e a)))).
Proof.
  intros lr_ok schedule_ok warmup_ok b1_ok b2_ok.
  assert (Hlr : lr_ok →
    match lr a with
    | Some l => raise_if (¬ l >= 0.0) (Invalid_learning_rate l)
    | None => OK ()
    end = OK ()).
  { intros Hok. destruct (lr a) as [l|] eqn:Hl; [|done].
    apply raise_if_False. specialize (Hok l eq_refl). lra. }
  assert (Hsch : schedule_ok →
    raise_if (SCHEDULES !! schedule a = None) (Invalid_schedule (schedule a))
    = OK ()).
  { intros [f Hf]%SCHEDULES_known. apply raise_if_False. by rewrite Hf. }
  assert (Hw : warmup_ok →
    raise_if (¬ (0.0 <= warmup a ∧ warmup a < 1.0) ∧ ¬ warmup a = -1)
      (Invalid_warmup (warmup a)) = OK ()).
  { intros H. apply raise_if_False. unfold warmup_ok in H. lra. }
  assert (Hb1 : b1_ok →
    raise_if (¬ (0.0 <= b1 a ∧ b1 a < 1.0)) (Invalid_b1 (b1 a)) = OK ()).
  { intros H. apply raise_if_False. unfold b1_ok in H. lra. }
  assert (Hb2 : b2_ok →
    raise_if (¬ (0.0 <= b2 a ∧ b2 a < 1.0)) (Invalid_b2 (b2 a)) = OK ()).
  { intros H. apply raise_if_False. unfold b2_ok in H. lra. }
  unfold BERTAdam_checks. split_and!.
  - intros l Hl Hbad. rewrite Hl.
    rewrite (raise_if_True (¬ l >= 0.0)); [done|lra].
  - intros H1 H2. rewrite (Hlr H1). simpl.
    rewrite (raise_if_True (SCHEDULES !! schedule a = None)); [done|].
    by apply SCHEDULES_unknown.
  - intros H1 H2 H3. rewrite (Hlr H1). simpl. rewrite (Hsch H2). simpl.
    rewrite (raise_if_True (¬ (0.0 <= warmup a ∧ warmup a < 1.0) ∧ _)); [done|].
    unfold warmup_ok in H3. lra.
  - intros H1 H2 H3 H4. rewrite (Hlr H1). simpl. rewrite (Hsch H2). simpl.
    rewrite (Hw H3). simpl.
    rewrite (raise_if_True (¬ (0.0 <= b1 a ∧ b1 a < 1.0))); [done|].
    unfold b1_ok in H4. lra.
  - intros H1 H2 H3 H4 H5. rewrite (Hlr H1). simpl. rewrite (Hsch H2). simpl.
    rewrite (Hw H3). simpl. rewrite (Hb1 H4). simpl.
    rewrite (raise_if_True (¬ (0.0 <= b2 a ∧ b2 a < 1.0))); [done|].
    unfold b2_ok in H5. lra.
  - intros H1 H2 H3 H4 H5 H6. rewrite (Hlr H1). simpl. rewrite (Hsch H2). simpl.
    rewrite (Hw H3). simpl. rewrite (Hb1 H4). simpl. rewrite (Hb2 H5). simpl.
    apply raise_if_True. lra.
Qed.

(** X1.  The checks run in the order lr, schedule, warmup, b1, b2, e, before the
    base class sees the groups: the error names the first value that fails,
    whatever the later ones and whatever the groups are. *)
Theorem BERTAdam_init_first_failure (gs : list group_spec) (a : defaults) :
  let lr_ok := ∀ l, lr a = Some l → l >= 0 in
  let schedule_ok := schedule a ∈ known_schedules in
  let warmup_ok := (0 <= warmup a ∧ warmup a < 1) ∨ warmup a = -1 in
  let b1_ok := 0 <= b1 a ∧ b1 a < 1 in
  let b2_ok := 0 <= b2 a ∧ b2 a < 1 in
  (∀ l, lr a = Some l → ¬ l >= 0 →
     BERTAdam_init gs a = Raise (ValueError (Invalid_learning_rate l))) ∧
  (lr_ok → ¬ schedule_ok →
     BERTAdam_init gs a = Raise (ValueError (Invalid_schedule (schedule a)))) ∧
  (lr_ok → schedule_ok → ¬ warmup_ok →
     BERTAdam_init gs a = Raise (ValueError (Invalid_warmup (warmup a)))) ∧
  (lr_ok → schedule_ok → warmup_ok → ¬ b1_ok →
     BERTAdam_init gs a = Raise (ValueError (Invalid_b1 (b1 a)))) ∧
  (lr_ok → schedule_ok → warmup_ok → b1_ok → ¬ b2_ok →
     BERTAdam_init gs a = Raise (ValueError (Invalid_b2 (b2 a)))) ∧
  (lr_ok → schedule_ok → warmup_ok → b1_ok → b2_ok → ¬ e a >= 0 →
     BERTAdam_init gs a = Raise (ValueError (Invalid_epsilon (e a)))).
Proof.
  intros lr_ok schedule_ok warmup_ok b1_ok b2_ok.
  destruct (BERTAdam_checks_first_failure a) as (H1 & H2 & H3 & H4 & H5 & H6).
  unfold BERTAdam_init.
  split_and!; intros; [rewrite (H1 l)|rewrite H2|rewrite H3|rewrite H4
                      |rewrite H5|rewrite H6]; done.
Qed.

Lemma BERTAdam_init_first_failure_witness :
  BERTAdam [] (Some (-1)) 1.5 (-1) "bogus" 2 2 (-1) 0.01 None 1.0
  = Raise (ValueError (Invalid_learning_rate (-1))).
Proof.
  refine (proj1 (BERTAdam_init_first_failure []
            {| lr := Some (-1); warmup := 1.5; t_total := (-1)%Z;
               schedule := "bogus"; b1 := 2; b2 := 2; e := -1;
               weight_decay_rate := 0.01; cycle_step := None;
               max_grad_norm := 1.0 |}) (-1) eq_refl _).
  lra.
Defined.

(** ** Hyperparameters that the constructor does not check *)

Lemma lr_scheduled_cycle_zero (group : defaults) k c f :
  SCHEDULES !! schedule group = Some f →
  cycle_step group = Some c → (k > c)%Z → c = 0%Z →
  lr_scheduled group k = Raise ZeroDivisionError.
Proof.
  intros Hf Hc Hk Hc0. unfold lr_scheduled.
  rewrite (SCHEDULES_getitem_Some _ _ Hf), Hc. simpl.
  rewrite decide_True by done. unfold pymod. by rewrite decide_True.
Qed.

(** X2.  [t_total], [cycle_step] and the product [warmup * t_total] are never
    checked: arguments that pass every check of the constructor can make
    the learning rate of every update a division by zero. *)
Theorem unchecked_hyperparameters_divide_by_zero (a : defaults) (k : Z) :
  valid_hyperparameters a →
  BERTAdam_checks a = OK () ∧
  (cycle_step a = None → t_total a = 0%Z →
     lr_scheduled a k = Raise ZeroDivisionError) ∧
  (cycle_step a = None → schedule a = "warmup_fix" → warmup a = 0 →
     lr_scheduled a k = Raise ZeroDivisionError) ∧
  (cycle_step a = Some 0%Z → (k > 0)%Z →
     lr_scheduled a k = Raise ZeroDivisionError).
Proof.
  intros Hvalid. split; [by apply BERTAdam_checks_valid|].
  destruct Hvalid as (_ & [f Hf]%SCHEDULES_known & _).
  assert (Hnc : cycle_step a = None →
                ¬ (∃ c, cycle_step a = Some c ∧ (k > c)%Z)).
  { intros Hc (c & Hc' & _). congruence. }
  split_and!.
  - intros Hc Ht. rewrite (lr_scheduled_not_cyclical _ _ f Hf (Hnc Hc)), Ht.
    assert (Hcase : schedule a = "warmup_fix" ∨ schedule a ≠ "warmup_fix")
      by (destruct (decide (schedule a = "warmup_fix")); tauto).
    destruct Hcase as [Hs|Hs].
    + rewrite decide_False by tauto. rewrite decide_True by done.
      rewrite Hs, SCHEDULES_warmup_fix in Hf. injection Hf as <-.
      unfold warmup_fix. rewrite Rmult_0_r. by rewrite pydiv_zero.
    + rewrite decide_True by done. by rewrite pydiv_zero.
  - intros Hc Hs Hw. rewrite (lr_scheduled_not_cyclical _ _ f Hf (Hnc Hc)).
    rewrite decide_False by tauto. rewrite decide_True by done.
    rewrite Hs, SCHEDULES_warmup_fix in Hf. injection Hf as <-.
    unfold warmup_fix. rewrite Hw, Rmult_0_l. by rewrite pydiv_zero.
  - intros Hc Hk. by apply (lr_scheduled_cycle_zero _ _ 0 f).
Qed.

Lemma unchecked_hyperparameters_divide_by_zero_witness :
  BERTAdam_checks
    {| lr := Some 0.001; warmup := 0.1; t_total := 0%Z;
       schedule := "warmup_linear"; b1 := 0.9; b2 := 0.999; e := 1e-6;
       weight_decay_rate := 0.01; cycle_step := None; max_grad_norm := 1.0 |}
  = OK () ∧
  lr_scheduled
    {| lr := Some 0.001; warmup := 0.1; t_total := 0%Z;
       schedule := "warmup_linear"; b1 := 0.9; b2 := 0.999; e := 1e-6;
       weight_decay_rate := 0.01; cycle_step := None; max_grad_norm := 1.0 |} 5
  = Raise ZeroDivisionError.
Proof.
  assert (Hvalid : valid_hyperparameters
    {| lr := Some 0.001; warmup := 0.1; t_total := 0%Z;
       schedule := "warmup_linear"; b1 := 0.9; b2 := 0.999; e := 1e-6;
       weight_decay_rate := 0.01; cycle_step := None; max_grad_norm := 1.0 |}).
  { unfold valid_hyperparameters, known_schedules. simpl.
    split_and!; try lra.
    - intros l [= <-]. lra.
    - rewrite !elem_of_cons. tauto. }
  destruct (unchecked_hyperparameters_divide_by_zero _ 5%Z Hvalid)
    as (Hok & Ht & _).
  split; [exact Hok|]. by apply Ht.
Defined.

(** ** The cyclical learning rate *)

(** X3.  Past a positive [cycle_step] the learning rate stays in (0, lr], is lr
    itself at every multiple of [cycle_step], and repeats with period
    [cycle_step]. *)
Theorem lr_scheduled_cyclical_bounds (group : defaults) (k c : Z) (l : R) :
  lr group = Some l → 0 < l → schedule group ∈ known_schedules →
  cycle_step group = Some c → (0 < c)%Z → (k > c)%Z →
  ∃ v, lr_scheduled group k = OK v ∧ 0 < v <= l ∧
       ((k mod c = 0)%Z → v = l) ∧
       lr_scheduled group (k + c) = OK v.
Proof.
  intros Hl Hl0 [f Hf]%SCHEDULES_known Hc Hc0 Hk.
  exists (l * (1 - IZR (k mod c) / IZR c)).
  pose proof (Z.mod_pos_bound k c Hc0) as [Hr0 Hrc].
  assert (0 < IZR c) by (by apply (IZR_lt 0)).
  assert (0 <= IZR (k mod c) / IZR c).
  { apply div_nonneg; [by apply (IZR_le 0)|done]. }
  assert (IZR (k mod c) / IZR c < 1).
  { apply div_lt_1; [done|by apply IZR_lt]. }
  split_and!.
  - apply (lr_scheduled_cyclical _ _ _ _ f); try done. lia.
  - nra.
  - nra.
  - intros ->. replace (IZR 0 / IZR c) with 0 by (field; lra). lra.
  - rewrite (lr_scheduled_cyclical _ _ c l f); try done; try lia.
    replace (k + c)%Z with (k + 1 * c)%Z by lia.
    by rewrite Z_mod_plus_full.
Qed.

Lemma lr_scheduled_cyclical_bounds_witness :
  ∃ v, lr_scheduled
         {| lr := Some 1.0; warmup := -1; t_total := (-1)%Z;
            schedule := "warmup_linear"; b1 := 0.9; b2 := 0.999; e := 1e-6;
            weight_decay_rate := 0.01; cycle_step := Some 100%Z;
            max_grad_norm := 1.0 |} 200 = OK v ∧ v = 1.0.
Proof.
  destruct (lr_scheduled_cyclical_bounds
              {| lr := Some 1.0; warmup := -1; t_total := (-1)%Z;
                 schedule := "warmup_linear"; b1 := 0.9; b2 := 0.999; e := 1e-6;
                 weight_decay_rate := 0.01; cycle_step := Some 100%Z;
                 max_grad_norm := 1.0 |} 200 100 1.0)
    as (v & Hv & _ & Hmult & _); try done; try lra; try lia.
  - unfold known_schedules. simpl. rewrite !elem_of_cons. tauto.
  - exists v. split; [done|]. by apply Hmult.
Defined.

(** ** The linear schedule *)

(** X4.  With the default [warmup = -1] ("no warmup") and a positive [t_total]
    the linear schedule starts at half the learning rate:
    [lr * (1 - step/t_total) / 2]. *)
Theorem lr_scheduled_linear_no_warmup (group : defaults) (k T : Z) (l : R) :
  lr group = Some l → schedule group = "warmup_linear" →
  warmup group = -1 → t_total group = T → cycle_step group = None →
  (0 < T)%Z → (0 ≤ k)%Z →
  lr_scheduled group k = OK (l * ((1 - IZR k / IZR T) / 2)).
Proof.
  intros Hl Hs Hw Ht Hc HT Hk.
  assert (0 < IZR T) by (by apply (IZR_lt 0)).
  assert (0 <= IZR k / IZR T).
  { apply div_nonneg; [by apply (IZR_le 0)|done]. }
  rewrite (lr_scheduled_not_cyclical _ _ warmup_linear).
  - rewrite decide_True by (rewrite Ht, Hs; split; [lia|done]).
    rewrite Ht, pydiv_ok by lra. simpl. rewrite Hw.
    unfold warmup_linear. rewrite decide_False by lra.
    rewrite pydiv_ok by lra. simpl. unfold times_lr. rewrite Hl.
    do 2 f_equal. replace (1.0 - -1) with 2 by lra.
    replace (1.0 - IZR k / IZR T) with (1 - IZR k / IZR T) by lra. done.
  - rewrite Hs. apply SCHEDULES_warmup_linear.
  - intros (c & Hc' & _). congruence.
Qed.

Lemma lr_scheduled_linear_no_warmup_witness :
  lr_scheduled
    {| lr := Some 1.0; warmup := -1; t_total := 100%Z;
       schedule := "warmup_linear"; b1 := 0.9; b2 := 0.999; e := 1e-6;
       weight_decay_rate := 0.01; cycle_step := None; max_grad_norm := 1.0 |} 0
  = OK (1.0 * ((1 - IZR 0 / IZR 100) / 2)).
Proof.
  apply (lr_scheduled_linear_no_warmup _ 0 100 1.0); try done; lia.
Defined.

(** X5.  For a warmup in (0,1) the linear schedule rises strictly up to the
    warmup, falls strictly from it on, never exceeds 1 and is 0 at the end
    of the schedule, [x = 1]. *)
Theorem warmup_linear_shape (warmup : R) :
  0 < warmup < 1 →
  (∀ x y, x < y → y < warmup →
     ∃ mx my, warmup_linear x warmup = OK mx ∧
              warmup_linear y warmup = OK my ∧ mx < my) ∧
  (∀ x y, warmup <= x → x < y →
     ∃ mx my, warmup_linear x warmup = OK mx ∧
              warmup_linear y warmup = OK my ∧ my < mx) ∧
  (∀ x, ∃ m, warmup_linear x warmup = OK m ∧ m <= 1) ∧
  warmup_linear 1 warmup = OK 0.
Proof.
  intros [Hw0 Hw1].
  assert (Hbelow : ∀ x, x < warmup → warmup_linear x warmup = OK (x / warmup)).
  { intros x Hx. unfold warmup_linear. rewrite decide_True by done.
    apply pydiv_ok. lra. }
  assert (Hinv : 0 < / warmup) by (by apply Rinv_0_lt_compat).
  assert (Hinv' : 0 < / (1 - warmup)) by (apply Rinv_0_lt_compat; lra).
  split_and!.
  - intros x y Hxy Hy. eexists _, _. rewrite !Hbelow by lra.
    split_and!; [done..|]. unfold Rdiv. nra.
  - intros x y Hx Hxy. eexists _, _. rewrite !warmup_linear_above by lra.
    split_and!; [done..|]. unfold Rdiv. nra.
  - intros x. destruct (decide (x < warmup)) as [Hx|Hx].
    + eexists. rewrite Hbelow by done. split; [done|].
      left. apply Rmult_lt_reg_r with warmup; [done|].
      unfold Rdiv. rewrite Rmult_assoc, Rinv_l by lra. lra.
    + eexists. rewrite warmup_linear_above by lra. split; [done|].
      apply Rmult_le_reg_r with (1 - warmup); [lra|].
      unfold Rdiv. rewrite Rmult_assoc, Rinv_l by lra. lra.
  - rewrite warmup_linear_above by lra. f_equal. unfold Rdiv. lra.
Qed.

Lemma warmup_linear_shape_witness : warmup_linear 1 0.1 = OK 0.
Proof.
  destruct (warmup_linear_shape 0.1 ltac:(lra)) as (_ & _ & _ & Hend).
  exact Hend.
Defined.

(** ** The factory: what it checks and what it does not *)

(** X6.  The assertion on [warmup_rate] comes first; it lets 1.0 through, which
    the constructor then refuses; and the mixed-precision path validates
    neither the learning rate nor the schedule name. *)
Theorem get_optimization_checks (apex float16 opt_pooler : bool)
    (named_parameters : list (string * param_id))
    (lr0 warmup_rate wd max_norm : R) (total : Z) (schedule0 : string) :
  (¬ (0 <= warmup_rate ∧ warmup_rate <= 1) →
     get_optimization apex named_parameters float16 lr0 total schedule0
       warmup_rate wd max_norm opt_pooler = Raise AssertionError) ∧
  (warmup_rate = 1 → float16 = false → 0 <= lr0 →
   schedule0 ∈ known_schedules →
     get_optimization apex named_parameters float16 lr0 total schedule0
       warmup_rate wd max_norm opt_pooler
     = Raise (ValueError (Invalid_warmup warmup_rate))) ∧
  (0 <= warmup_rate ∧ warmup_rate <= 1 → float16 = true →
     get_optimization apex named_parameters float16 lr0 total schedule0
       warmup_rate wd max_norm opt_pooler
     = if apex
       then OK (Built_FP16_FusedAdam
                  (optimizer_parameters named_parameters opt_pooler wd)
                  lr0 max_norm)
       else Raise ImportError).
Proof.
  unfold get_optimization. split_and!.
  - intros Hw. rewrite decide_False; [done|lra].
  - intros -> -> Hlr Hs. rewrite decide_True by lra.
    destruct (BERTAdam_checks_first_failure
                {| lr := Some lr0; warmup := 1; max_grad_norm := max_norm;
                   t_total := total; schedule := schedule0;
                   weight_decay_rate := wd; b1 := 0.9; b2 := 0.999;
                   e := 1e-6; cycle_step := None |}) as (_ & _ & Hwarm & _).
    unfold BERTAdam_init. rewrite Hwarm; [done| |done|simpl; lra].
    intros l [= <-]. lra.
  - intros Hw ->. rewrite decide_True by lra. done.
Qed.

Lemma get_optimization_checks_witness :
  get_optimization false example_model false 0.001 100 "warmup_linear"
    1 0.01 1.0 false = Raise (ValueError (Invalid_warmup 1)).
Proof.
  refine (proj1 (proj2 (get_optimization_checks false false false example_model
                          0.001 1 0.01 1.0 100 "warmup_linear")) eq_refl eq_refl _ _).
  - lra.
  - unfold known_schedules. rewrite !elem_of_cons. tauto.
Defined.

Lemma string_append_assoc (a b c : string) :
  ((a ++ b) ++ c = a ++ (b ++ c))%string.
Proof.
  induction a as [|ch a IH]; [done|].
  change (String ch ((a ++ b) ++ c) = String ch (a ++ (b ++ c)))%string.
  by rewrite IH.
Qed.

Lemma is_substring_trans a b c :
  is_substring a b → is_substring b c → is_substring a c.
Proof.
  intros (p1 & q1 & ->) (p2 & q2 & ->).
  exists (p2 ++ p1)%string, (q1 ++ q2)%string.
  by rewrite !string_append_assoc.
Qed.

(** X7.  The entry LayerNorm.bias of the exclusion list is redundant: a name is
    excluded from weight decay exactly when it contains bias or
    LayerNorm.weight. *)
Theorem any_no_decay_two_names (n : string) :
  any_no_decay n = contains "bias" n || contains "LayerNorm.weight" n.
Proof.
  unfold any_no_decay, no_decay. simpl existsb. rewrite orb_false_r.
  assert (H : contains "LayerNorm.bias" n = true → contains "bias" n = true).
  { rewrite !contains_spec. apply is_substring_trans.
    by exists "LayerNorm."%string, ""%string. }
  destruct (contains "bias" n), (contains "LayerNorm.bias" n); simpl; try done.
  by discriminate H.
Qed.

(** ** What an update call leaves alone *)

Lemma for_each_updates_absent ps p : ∀ w w' r,
  for_each ps update_of w = (w', r) →
  grad (heap w p) = None →
  heap w' p = heap w p ∧ state (self w') !! p = state (self w) !! p.
Proof.
  induction ps as [|[g q] ps IH]; intros w w' r Hrun Hnone.
  - by injection Hrun as <- <-.
  - rewrite for_each_cons in Hrun. unfold update_of at 1 in Hrun. simpl in Hrun.
    assert (Hstep : ∃ w1 r1, update_parameter g q w = (w1, r1) ∧
              heap w1 p = heap w p ∧ state (self w1) !! p = state (self w) !! p).
    { destruct (decide (q = p)) as [->|Hq].
      - exists w, (OK ()). by rewrite update_parameter_absent.
      - destruct (update_parameter g q w) as [w1 r1] eqn:Hup.
        apply update_parameter_effect in Hup as (_ & Hfr & _ & _).
        exists w1, r1. split; [done|]. by apply Hfr. }
    destruct Hstep as (w1 & r1 & Hup & Hh1 & Hst1). rewrite Hup in Hrun.
    destruct r1 as [[]|x1].
    + apply IH in Hrun as [Hh Hst]; [|by rewrite Hh1]. split; congruence.
    + by injection Hrun as <- <-.
Qed.

(** X8.  An update call never changes the groups, never adds, removes or
    changes the layout of a gradient, and leaves every parameter that is
    listed in no group or has no gradient exactly as it is (value,
    gradient and state), whether the call completes or raises. *)
Theorem step_leaves_others_alone closure (w w' : world) r :
  BERTAdam_step closure w = (w', r) →
  let w0 := after_closure closure w in
  param_groups (self w') = param_groups (self w) ∧
  (∀ p, is_sparse <$> grad (heap w' p) = is_sparse <$> grad (heap w0 p)) ∧
  (∀ p, p ∉ listed (param_groups (self w)) ∨ grad (heap w0 p) = None →
        heap w' p = heap w0 p ∧
        state (self w') !! p = state (self w) !! p).
Proof.
  rewrite BERTAdam_step_unfold. intros Hstep w0.
  destruct (for_each _ _ _) as [w1 r1] eqn:Hrun.
  assert (w1 = w') as -> by (destruct r1 as [[]|]; by injection Hstep).
  pose proof (for_each_updates_effect _ _ _ _ Hrun) as (Hpg & Hsp & Hfr & _).
  rewrite after_closure_self in Hpg. split_and!; [done..|].
  intros p [Hp|Hp].
  - rewrite <- updates_listed in Hp. destruct (Hfr p Hp) as [Hh Hst].
    by rewrite after_closure_self in Hst.
  - destruct (for_each_updates_absent _ p _ _ _ Hrun Hp) as [Hh Hst].
    by rewrite after_closure_self in Hst.
Qed.

Lemma step_leaves_others_alone_witness :
  heap (BERTAdam_step None dense_world).1 2%positive = heap dense_world 2%positive.
Proof.
  refine (proj1 (proj2 (proj2 (step_leaves_others_alone None dense_world _ _
                                 (surjective_pairing _))) 2%positive _)).
  left. unfold listed. simpl. rewrite elem_of_cons, elem_of_nil.
  intros [[=]|[]].
Defined.

(** ** A learning rate that fails *)

(** X9.  The learning rate is computed after the moments were written: when it
    raises, the update of a dense gradient fails with that error, the value
    and the step counter of the parameter are as before, but both moments
    already hold their new values. *)
Theorem failed_learning_rate_keeps_moments (group : param_group)
    (p : param_id) (w : world) (gr : gradient) (x : exn) :
  grad (heap w p) = Some gr → is_sparse gr = false →
  lr_scheduled group (counter w p) = Raise x →
  let g := clipped_gradient group (grad_data gr) in
  ∃ w', update_parameter group p w = (w', Raise x) ∧
        data (heap w' p) = data (heap w p) ∧
        state (self w') !! p =
          Some {| step := counter w p;
                  next_m := new_m group (state_of w p) g;
                  next_v := new_v group (state_of w p) g |}.
Proof.
  intros Hg Hs Hlr g.
  destruct (update_parameter_dense group p w gr Hg Hs)
    as (w1 & Hst1 & _ & Hp1 & _ & Heq).
  fold (counter w p) in Heq, Hst1. rewrite Hlr in Heq.
  exists w1. split_and!; [done| |].
  - by rewrite Hp1.
  - by rewrite Hst1, lookup_insert_eq.
Qed.

Lemma failed_learning_rate_keeps_moments_witness :
  ∃ w', update_parameter zero_total_group 1%positive zero_total_world
          = (w', Raise ZeroDivisionError) ∧
        data (heap w' 1%positive) = [1].
Proof.
  assert (Hc : counter zero_total_world 1%positive = 0%Z) by reflexivity.
  assert (Hlr : lr_scheduled zero_total_group (counter zero_total_world 1%positive)
                = Raise ZeroDivisionError).
  { rewrite Hc. rewrite (lr_scheduled_not_cyclical _ _ warmup_linear);
      [|reflexivity|by intros (c & [=] & _)].
    rewrite decide_True by (split; [simpl; lia|done]).
    simpl. by rewrite pydiv_zero. }
  destruct (failed_learning_rate_keeps_moments zero_total_group 1%positive
              zero_total_world {| is_sparse := false; grad_data := [0.5] |}
              ZeroDivisionError eq_refl eq_refl Hlr) as (w' & Hup & Hd & _).
  by exists w'.
Defined.

(** ** What a completed call does to one parameter *)

Lemma occurrences_in_app p l1 l2 :
  occurrences_in p (l1 ++ l2) = (occurrences_in p l1 + occurrences_in p l2)%nat.
Proof. unfold occurrences_in. by rewrite filter_app, length_app. Qed.

Lemma occurrences_in_zero p l : occurrences_in p l = 0%nat → p ∉ l.
Proof.
  induction l as [|q l IH]; intros Hocc; [apply not_elem_of_nil|].
  destruct (decide (q = p)) as [->|Hq].
  - by rewrite occurrences_in_cons_eq in Hocc.
  - rewrite occurrences_in_cons_ne in Hocc by done.
    apply not_elem_of_cons. split; [done|by apply IH].
Qed.

Lemma updates_split_once (ps : list (param_group * param_id)) G p :
  (G, p) ∈ ps → occurrences_in p (ps.*2) = 1%nat →
  ∃ pre post, ps = pre ++ (G, p) :: post ∧
    (p ∉ pre.*2) ∧ (p ∉ post.*2).
Proof.
  intros (pre & post & ->)%list_elem_of_split Hocc.
  exists pre, post. split; [done|].
  rewrite fmap_app, fmap_cons, occurrences_in_app in Hocc. simpl in Hocc.
  rewrite occurrences_in_cons_eq in Hocc.
  split; apply occurrences_in_zero; lia.
Qed.

Lemma state_of_agree w1 w2 p :
  heap w1 p = heap w2 p → state (self w1) !! p = state (self w2) !! p →
  state_of w1 p = state_of w2 p.
Proof. intros Hh Hst. unfold state_of. by rewrite Hh, Hst. Qed.

Lemma updates_parameter_result ps (G : param_group) p gr : ∀ w w',
  for_each ps update_of w = (w', OK ()) →
  (G, p) ∈ ps → occurrences_in p (ps.*2) = 1%nat →
  grad (heap w p) = Some gr → is_sparse gr = false →
  let s := state_of w p in
  let g := clipped_gradient G (grad_data gr) in
  ∃ l, lr_scheduled G (step s) = OK l ∧
       state (self w') !! p =
         Some {| step := step s + 1; next_m := new_m G s g;
                 next_v := new_v G s g |} ∧
       heap w' p =
         {| data := tensor_add (data (heap w p))
                      (tensor_neg (tensor_scale l
                         (update_direction G s (data (heap w p)) g)));
            grad := Some {| is_sparse := false; grad_data := g |} |}.
Proof.
  intros w w' Hrun Hin Hocc Hg Hs s g.
  destruct (updates_split_once ps G p Hin Hocc) as (pre & post & -> & Hpre & Hpost).
  rewrite for_each_app in Hrun.
  destruct (for_each pre update_of w) as [w1 r1] eqn:Hrun1.
  destruct r1 as [[]|x1]; [|done].
  apply for_each_updates_effect in Hrun1 as (_ & _ & Hfr1 & _).
  destruct (Hfr1 p Hpre) as [Hh1 Hst1].
  rewrite for_each_cons in Hrun. unfold update_of at 1 in Hrun. simpl in Hrun.
  destruct (update_parameter_dense G p w1 gr) as (w2 & _ & _ & Hp2 & _ & Heq);
    [by rewrite Hh1|done|].
  rewrite (state_of_agree w1 w p Hh1 Hst1), Hh1 in Heq. fold s g in Heq.
  rewrite Heq in Hrun. clear Heq.
  destruct (lr_scheduled G (step s)) as [l|x]; [|done].
  apply for_each_updates_effect in Hrun as (_ & _ & Hfr2 & _).
  destruct (Hfr2 p Hpost) as [Hh2 Hst2].
  exists l. split; [done|]. rewrite Hst2, Hh2.
  unfold with_state, with_parameter. cbn [self state heap].
  rewrite lookup_insert_eq, decide_True by done. by rewrite Hp2.
Qed.

(** X10.  In a call that completes, a parameter that is listed once and has a
    dense gradient ends with the state and the value that its own update
    computes from its own state, value and gradient and from the
    hyperparameters of its group: nothing of the other parameters enters,
    the clipping included, which is by the norm of this gradient alone. *)
Theorem step_parameter_result closure (w w' : world) loss
    (G : param_group) (p : param_id) (gr : gradient) :
  BERTAdam_step closure w = (w', OK loss) →
  let w0 := after_closure closure w in
  (G, p) ∈ updates (param_groups (self w)) →
  occurrences_in p (listed (param_groups (self w))) = 1%nat →
  grad (heap w0 p) = Some gr → is_sparse gr = false →
  let s := state_of w0 p in
  let g := clipped_gradient G (grad_data gr) in
  ∃ l, lr_scheduled G (step s) = OK l ∧
       state (self w') !! p =
         Some {| step := step s + 1; next_m := new_m G s g;
                 next_v := new_v G s g |} ∧
       heap w' p =
         {| data := tensor_add (data (heap w0 p))
                      (tensor_neg (tensor_scale l
                         (update_direction G s (data (heap w0 p)) g)));
            grad := Some {| is_sparse := false; grad_data := g |} |}.
Proof.
  rewrite BERTAdam_step_unfold. intros Hstep w0 Hin Hocc Hg Hs.
  destruct (for_each _ _ _) as [w1 r1] eqn:Hrun.
  destruct r1 as [[]|x]; [|done]. injection Hstep as -> _.
  rewrite <- updates_listed in Hocc.
  by apply (updates_parameter_result _ G p gr _ _ Hrun).
Qed.

Lemma step_parameter_result_witness :
  ∃ w' l, BERTAdam_step None dense_world = (w', OK None) ∧
          lr_scheduled (default_args (Some 0.001)) 0 = OK l ∧
          counter w' 1%positive = 1%Z.
Proof.
  destruct dense_world_completes as [w' Hw'].
  destruct (step_parameter_result None dense_world w' None
              {| params := [1%positive]; hyper := default_args (Some 0.001) |}
              1%positive {| is_sparse := false; grad_data := [0.5] |} Hw')
    as (l & Hl & Hst & _).
  - unfold updates. simpl. apply list_elem_of_singleton. done.
  - reflexivity.
  - reflexivity.
  - reflexivity.
  - exists w', l. split_and!; [done|exact Hl|].
    rewrite counter_lookup, Hst. reflexivity.
Defined.

(** ** The moments after several calls *)

Lemma repeat_step_S n w :
  repeat_step (S n) w =
    match BERTAdam_step None w with
    | (w1, OK _) => repeat_step n w1
    | (w1, Raise x) => (w1, Raise x)
    end.
Proof. reflexivity. Qed.

Lemma new_m_lookup (G : defaults) s g i mi gi :
  next_m s !! i = Some mi → g !! i = Some gi →
  new_m G s g !! i = Some (mi * b1 G + (1 - b1 G) * gi).
Proof.
  intros Hm Hg. unfold new_m, add_, mul_.
  by rewrite lookup_zip_with, list_lookup_fmap, Hm, Hg.
Qed.

Lemma new_v_lookup (G : defaults) s g i vi gi :
  next_v s !! i = Some vi → g !! i = Some gi →
  new_v G s g !! i = Some (vi * b2 G + (1 - b2 G) * (gi * gi)).
Proof.
  intros Hv Hg. unfold new_v, addcmul_, mul_.
  by rewrite !lookup_zip_with, list_lookup_fmap, Hv, Hg.
Qed.

Lemma clipped_gradient_off (G : defaults) g :
  ¬ max_grad_norm G > 0 → clipped_gradient G g = g.
Proof. intros H. unfold clipped_gradient. by rewrite decide_False. Qed.

Lemma state_of_lookup w p s :
  state (self w) !! p = Some s → state_of w p = s.
Proof. intros H. unfold state_of. by rewrite H. Qed.

Lemma repeat_step_moments n (G : param_group) p g : ∀ w w2,
  repeat_step n w = (w2, OK ()) →
  (G, p) ∈ updates (param_groups (self w)) →
  occurrences_in p (listed (param_groups (self w))) = 1%nat →
  grad (heap w p) = Some {| is_sparse := false; grad_data := g |} →
  ¬ max_grad_norm G > 0 →
  counter w2 p = (counter w p + Z.of_nat n)%Z ∧
  ∀ i gi mi vi,
    g !! i = Some gi →
    next_m (state_of w p) !! i = Some mi →
    next_v (state_of w p) !! i = Some vi →
    next_m (state_of w2 p) !! i
      = Some (b1 G ^ n * mi + (1 - b1 G ^ n) * gi) ∧
    next_v (state_of w2 p) !! i
      = Some (b2 G ^ n * vi + (1 - b2 G ^ n) * (gi * gi)).
Proof.
  induction n as [|n IH]; intros w w2 Hrun Hin Hocc Hg Hclip.
  - injection Hrun as <-. split; [lia|].
    intros i gi mi vi _ Hm Hv. rewrite Hm, Hv. split; f_equal; simpl; lra.
  - rewrite repeat_step_S in Hrun.
    destruct (BERTAdam_step None w) as [w1 r1] eqn:Hstep.
    destruct r1 as [loss|x]; [|done].
    destruct (BERTAdam_step_effect _ _ _ _ Hstep) as (Hpg & _ & _ & _).
    rewrite BERTAdam_step_unfold in Hstep.
    change (after_closure None w) with w in Hstep.
    destruct (for_each _ _ w) as [w3 r3] eqn:Hrun1.
    destruct r3 as [[]|x]; [|done]. injection Hstep as -> _.
    rewrite <- updates_listed in Hocc.
    destruct (updates_parameter_result _ G p _ _ _ Hrun1 Hin Hocc Hg eq_refl)
      as (l & _ & Hst1 & Hh1).
    rewrite updates_listed in Hocc. cbn [grad_data] in Hst1, Hh1.
    rewrite clipped_gradient_off in Hst1, Hh1 by done.
    destruct (IH w1 w2 Hrun) as [Hcnt Hmom].
    + by rewrite Hpg.
    + by rewrite Hpg.
    + by rewrite Hh1.
    + done.
    + split.
      * rewrite Hcnt, counter_lookup, Hst1. simpl. unfold counter. lia.
      * intros i gi mi vi Hgi Hm Hv.
        destruct (Hmom i gi (mi * b1 G + (1 - b1 G) * gi)
                    (vi * b2 G + (1 - b2 G) * (gi * gi)) Hgi) as [Hm2 Hv2].
        -- rewrite (state_of_lookup _ _ _ Hst1). simpl. by apply new_m_lookup.
        -- rewrite (state_of_lookup _ _ _ Hst1). simpl. by apply new_v_lookup.
        -- rewrite Hm2, Hv2. split; f_equal; simpl; ring.
Qed.

Lemma repeat_step_completes n : ∀ w,
  (∀ g p, (g, p) ∈ updates (param_groups (self w)) →
     ¬ has_sparse_gradient w p ∧ ∀ k, ∃ l, lr_scheduled (hyper g) k = OK l) →
  ∃ w2, repeat_step n w = (w2, OK ()).
Proof.
  induction n as [|n IH]; intros w Hall; [by eexists|].
  rewrite repeat_step_S, BERTAdam_step_unfold.
  change (after_closure None w) with w.
  destruct (for_each_updates_complete _ w Hall) as [w1 Hrun]. rewrite Hrun.
  apply IH. intros g p Hin.
  apply for_each_updates_effect in Hrun as (Hpg & Hsp & _).
  rewrite Hpg in Hin. destruct (Hall g p Hin) as [Hns Hlr]. split; [|done].
  intros (gr & Hg & Hs). apply Hns. specialize (Hsp p).
  rewrite Hg in Hsp. simpl in Hsp. rewrite Hs in Hsp.
  destruct (grad (heap w p)) as [gr2|] eqn:Hg2; [|done].
  exists gr2. split; [done|]. simpl in Hsp. congruence.
Qed.

(** X11.  There is no bias correction: as long as the gradient of a parameter
    is not rewritten (no closure, no clipping), [n] completed calls turn
    moments [m], [v] into [b1^n m + (1 - b1^n) g] and
    [b2^n v + (1 - b2^n) g^2], entry by entry, and add [n] to the step
    counter; from zero moments that is [(1 - b1^n) g] and
    [(1 - b2^n) g^2]. *)
Theorem moments_after_n_calls (n : nat) (G : param_group) (p : param_id)
    (g : tensor) (w w2 : world) :
  repeat_step n w = (w2, OK ()) →
  (G, p) ∈ updates (param_groups (self w)) →
  occurrences_in p (listed (param_groups (self w))) = 1%nat →
  grad (heap w p) = Some {| is_sparse := false; grad_data := g |} →
  ¬ max_grad_norm G > 0 →
  counter w2 p = (counter w p + Z.of_nat n)%Z ∧
  ∀ i gi mi vi,
    g !! i = Some gi →
    next_m (state_of w p) !! i = Some mi →
    next_v (state_of w p) !! i = Some vi →
    next_m (state_of w2 p) !! i
      = Some (b1 G ^ n * mi + (1 - b1 G ^ n) * gi) ∧
    next_v (state_of w2 p) !! i
      = Some (b2 G ^ n * vi + (1 - b2 G ^ n) * (gi * gi)).
Proof. apply repeat_step_moments. Qed.

Lemma plain_world_completes n :
  ∃ w2, repeat_step n plain_world = (w2, OK ()).
Proof.
  apply repeat_step_completes.
  intros g p [[= -> ->]|[]%elem_of_nil]%elem_of_cons. split.
  - intros (gr & [= <-] & Hs). done.
  - intros k. exists 0.001. apply lr_scheduled_constant; try done.
    unfold known_schedules. simpl. rewrite !elem_of_cons. tauto.
Qed.

Lemma moments_after_n_calls_witness :
  ∃ w2, repeat_step 3 plain_world = (w2, OK ()) ∧
        counter w2 1%positive = 3%Z ∧
        next_m (state_of w2 1%positive) !! 0%nat
          = Some (0.9 ^ 3 * 0 + (1 - 0.9 ^ 3) * 0.5).
Proof.
  destruct (plain_world_completes 3) as [w2 Hw2]. exists w2.
  destruct (moments_after_n_calls 3 plain_group 1%positive [0.5]
              plain_world w2 Hw2) as [Hcnt Hmom].
  - unfold updates. simpl. by apply list_elem_of_singleton.
  - reflexivity.
  - reflexivity.
  - simpl. lra.
  - split; [done|]. split; [exact Hcnt|].
    by destruct (Hmom 0%nat 0.5 0 0 eq_refl eq_refl eq_refl) as [Hm _].
Defined.

(** ** Invariants of the stored state *)

Lemma for_each_updates_invariant (P : world → Prop) ps :
  (∀ g p w w1 r, (g, p) ∈ ps → update_parameter g p w = (w1, r) → P w → P w1) →
  ∀ w w1 r, for_each ps update_of w = (w1, r) → P w → P w1.
Proof.
  induction ps as [|[g p] ps IH]; intros Hone w w1 r Hrun HP.
  - by injection Hrun as <- _.
  - rewrite for_each_cons in Hrun. unfold update_of at 1 in Hrun. simpl in Hrun.
    destruct (update_parameter g p w) as [w2 r2] eqn:Hup.
    assert (P w2) by (eapply Hone; [left|done..]).
    destruct r2 as [[]|x].
    + eapply IH; [|done..]. intros g1 p1 wa wb rb Hin. apply Hone. by right.
    + by injection Hrun as <- _.
Qed.

Lemma updates_group groups g p :
  (g, p) ∈ updates groups → g ∈ groups.
Proof.
  unfold updates. induction groups as [|g1 groups IH]; simpl.
  - by intros ?%elem_of_nil.
  - intros [Hin|Hin]%elem_of_app; [|right; by apply IH].
    apply list_elem_of_In, in_map_iff in Hin as (p2 & [= <- <-] & _).
    left.
Qed.

Lemma length_clipped_gradient (G : defaults) g :
  length (clipped_gradient G g) = length g.
Proof.
  unfold clipped_gradient, clipped, mul_.
  repeat case_decide; by rewrite ?length_fmap.
Qed.

Lemma length_new_m (G : defaults) s g n :
  length (next_m s) = n → length g = n → length (new_m G s g) = n.
Proof.
  intros Hm Hg. unfold new_m, add_, mul_.
  rewrite length_zip_with, length_fmap. lia.
Qed.

Lemma length_new_v (G : defaults) s g n :
  length (next_v s) = n → length g = n → length (new_v G s g) = n.
Proof.
  intros Hv Hg. unfold new_v, addcmul_, mul_.
  rewrite !length_zip_with, length_fmap. lia.
Qed.

Lemma length_update_direction (G : defaults) s d g n :
  length (next_m s) = n → length (next_v s) = n → length g = n →
  length d = n → length (update_direction G s d g) = n.
Proof.
  intros Hm Hv Hg Hd. unfold update_direction.
  assert (length (tensor_div (new_m G s g)
            (tensor_add_scalar (tensor_sqrt (new_v G s g)) (e G))) = n).
  { unfold tensor_div, tensor_add_scalar, tensor_sqrt.
    rewrite length_zip_with, !length_fmap.
    rewrite (length_new_m G s g n), (length_new_v G s g n) by done. lia. }
  case_decide; [|done].
  unfold tensor_add, tensor_scale. rewrite length_zip_with, length_fmap. lia.
Qed.

Lemma state_of_shape w p :
  well_shaped w →
  length (next_m (state_of w p)) = length (data (heap w p)) ∧
  length (next_v (state_of w p)) = length (data (heap w p)).
Proof.
  intros Hws. unfold state_of.
  destruct (state (self w) !! p) as [s|] eqn:Hst; simpl.
  - by apply (Hws p).
  - unfold zeros_like. by rewrite length_fmap.
Qed.

Lemma update_parameter_well_shaped (G : param_group) p w w1 r :
  update_parameter G p w = (w1, r) → well_shaped w → well_shaped w1.
Proof.
  intros Hup Hws.
  assert (Hcase : (∃ gr, grad (heap w p) = Some gr) ∨ grad (heap w p) = None)
    by (destruct (grad (heap w p)); eauto).
  destruct Hcase as [[gr Hg]|Hg]; last first.
  { rewrite update_parameter_absent in Hup by done. by injection Hup as <- _. }
  destruct (is_sparse gr) eqn:Hs.
  { rewrite (update_parameter_sparse _ _ _ gr) in Hup by done.
    by injection Hup as <- _. }
  destruct (update_parameter_dense G p w gr Hg Hs)
    as (w2 & Hst2 & _ & Hp2 & Hfr2 & Heq).
  rewrite Heq in Hup. clear Heq.
  destruct (state_of_shape w p Hws) as [Hm Hv].
  pose proof (proj1 (Hws p) gr Hg) as Hgr.
  set (n := length (data (heap w p))) in *.
  assert (Hg2 : length (clipped_gradient G (grad_data gr)) = n)
    by (by rewrite length_clipped_gradient).
  assert (Hws2 : well_shaped w2).
  { intros q. destruct (decide (q = p)) as [->|Hq].
    - rewrite Hp2, Hst2, lookup_insert_eq. simpl. split.
      + by intros gr2 [= <-].
      + intros s2 [= <-]. simpl.
        by rewrite (length_new_m G _ _ n), (length_new_v G _ _ n).
    - rewrite Hfr2, Hst2, lookup_insert_ne by done. apply Hws. }
  destruct (lr_scheduled G (step (state_of w p))) as [l|x];
    injection Hup as <- _; [|done].
  intros q. unfold with_state, with_parameter. cbn [self state heap].
  assert (Hqp : q = p ∨ q ≠ p) by (destruct (decide (q = p)); tauto).
  destruct Hqp as [->|Hq].
  - rewrite decide_True, lookup_insert_eq by done. rewrite Hp2. simpl.
    assert (Hd : length (tensor_add (data (heap w p))
                   (tensor_neg (tensor_scale l
                      (update_direction G (state_of w p) (data (heap w p))
                         (clipped_gradient G (grad_data gr)))))) = n).
    { unfold tensor_add, tensor_neg, tensor_scale.
      rewrite length_zip_with, !length_fmap.
      rewrite (length_update_direction G _ _ _ n) by done. lia. }
    split.
    + intros gr2 [= <-]. simpl. by rewrite Hd.
    + intros s2 [= <-]. simpl. rewrite Hd.
      by rewrite (length_new_m G _ _ n), (length_new_v G _ _ n).
  - rewrite decide_False, lookup_insert_ne by done. apply Hws2.
Qed.

(** X12.  The shape invariant: if, when the updates start, every gradient and
    every stored moment has as many entries as its parameter, this still
    holds when the call ends, whether it completes or raises. *)
Theorem step_keeps_shapes closure (w w1 : world) r :
  BERTAdam_step closure w = (w1, r) →
  well_shaped (after_closure closure w) → well_shaped w1.
Proof.
  rewrite BERTAdam_step_unfold. intros Hstep Hws.
  destruct (for_each _ _ _) as [w2 r2] eqn:Hrun.
  assert (w2 = w1) as -> by (destruct r2 as [[]|]; by injection Hstep).
  apply (for_each_updates_invariant well_shaped _) in Hrun; [done| |done].
  intros g p wa wb rb _. apply update_parameter_well_shaped.
Qed.

Lemma plain_world_well_shaped : well_shaped plain_world.
Proof.
  intros p. split.
  - by intros gr [= <-].
  - intros s Hs. simpl in Hs. by rewrite lookup_empty in Hs.
Qed.

Lemma step_keeps_shapes_witness :
  well_shaped (BERTAdam_step None plain_world).1.
Proof.
  apply (step_keeps_shapes None plain_world _ _ (surjective_pairing _)).
  apply plain_world_well_shaped.
Defined.

Lemma new_v_nonneg (G : defaults) s g :
  0 <= b2 G <= 1 → Forall (λ x, 0 <= x) (next_v s) →
  Forall (λ x, 0 <= x) (new_v G s g).
Proof.
  intros Hb Hv. apply Forall_lookup_2. intros i x Hx.
  unfold new_v, addcmul_, mul_ in Hx.
  apply lookup_zip_with_Some in Hx as (v & gg & -> & Hvi & Hgg).
  apply list_lookup_fmap_Some in Hvi as (v0 & -> & Hv0).
  apply lookup_zip_with_Some in Hgg as (a & b & -> & Ha & Hb2).
  assert (a = b) as -> by congruence.
  pose proof (Forall_lookup_1 _ _ _ _ Hv Hv0) as Hv1. simpl in Hv1.
  nra.
Qed.

Lemma update_parameter_nonneg (G : param_group) p w w1 r :
  0 <= b2 G <= 1 →
  update_parameter G p w = (w1, r) →
  nonneg_second_moments w → nonneg_second_moments w1.
Proof.
  intros Hb Hup Hnn.
  assert (Hcase : (∃ gr, grad (heap w p) = Some gr) ∨ grad (heap w p) = None)
    by (destruct (grad (heap w p)); eauto).
  destruct Hcase as [[gr Hg]|Hg]; last first.
  { rewrite update_parameter_absent in Hup by done. by injection Hup as <- _. }
  destruct (is_sparse gr) eqn:Hs.
  { rewrite (update_parameter_sparse _ _ _ gr) in Hup by done.
    by injection Hup as <- _. }
  destruct (update_parameter_dense G p w gr Hg Hs)
    as (w2 & Hst2 & _ & _ & _ & Heq).
  rewrite Heq in Hup. clear Heq.
  assert (Hs0 : Forall (λ x, 0 <= x) (next_v (state_of w p))).
  { unfold state_of. destruct (state (self w) !! p) as [s|] eqn:Hst; simpl.
    - by apply (Hnn p).
    - unfold zeros_like. apply Forall_fmap, Forall_true. intros x. simpl. lra. }
  assert (Hnew : ∀ k q s2,
    <[p := {| step := k;
              next_m := new_m G (state_of w p) (clipped_gradient G (grad_data gr));
              next_v := new_v G (state_of w p) (clipped_gradient G (grad_data gr)) |}]>
      (state (self w)) !! q = Some s2 →
    Forall (λ x, 0 <= x) (next_v s2)).
  { intros k q s2 Hq. destruct (decide (q = p)) as [->|Hne].
    - rewrite lookup_insert_eq in Hq. injection Hq as <-. simpl.
      by apply new_v_nonneg.
    - rewrite lookup_insert_ne in Hq by done. by apply (Hnn q). }
  destruct (lr_scheduled G (step (state_of w p))) as [l|x];
    injection Hup as <- _.
  - intros q s2. unfold with_state, with_parameter. cbn [self state].
    rewrite Hst2, insert_insert_eq. apply Hnew.
  - intros q s2. rewrite Hst2. apply Hnew.
Qed.

(** X13.  When every group has its b2 in [0,1] (the constructor demands [0,1)),
    no stored second moment ever gets a negative entry: what is under the
    square root of the update stays non-negative, whether the call
    completes or raises. *)
Theorem step_keeps_second_moments_nonneg closure (w w1 : world) r :
  BERTAdam_step closure w = (w1, r) →
  (∀ G : param_group, G ∈ param_groups (self w) → 0 <= b2 G <= 1) →
  nonneg_second_moments w → nonneg_second_moments w1.
Proof.
  rewrite BERTAdam_step_unfold. intros Hstep Hb Hnn.
  destruct (for_each _ _ _) as [w2 r2] eqn:Hrun.
  assert (w2 = w1) as -> by (destruct r2 as [[]|]; by injection Hstep).
  apply (for_each_updates_invariant nonneg_second_moments _) in Hrun; [done| |].
  - intros g p wa wb rb Hin. apply update_parameter_nonneg.
    apply Hb. by apply updates_group in Hin.
  - intros p s. rewrite after_closure_self. apply Hnn.
Qed.

Lemma step_keeps_second_moments_nonneg_witness :
  nonneg_second_moments (BERTAdam_step None plain_world).1.
Proof.
  apply (step_keeps_second_moments_nonneg None plain_world _ _
           (surjective_pairing _)).
  - intros G [->|[]%elem_of_nil]%elem_of_cons. simpl. lra.
  - intros p s Hs. simpl in Hs. by rewrite lookup_empty in Hs.
Defined.

(** ** Weight decay on its own *)








